(** * Incremental indexing of au-blog-rag: a shallow embedding.

    Embeds the loader graph of [src/loader_graph/graph.py]
    ([filter_sitemap_entries], [create_documents], [check_next_batch]),
    the Slack message handler and block builder of
    [src/slack_integration/slack_bot.py], and
    [IndexConfiguration.from_runnable_config] of
    [src/utils/configuration.py] (with langchain_core's [ensure_config]).

    Modelling choices:
    - URLs and ids are strings, timestamps ([lastmod]) are integers ordered
      like the Python [datetime] values they stand for; a stored lastmod
      string is given by its [datetime.fromisoformat] value, or by the
      failure of that call, and sitemap and stored timestamps are taken to
      be comparable;
    - [db_entries] is a Python [set] of [(source, lastmod)] pairs; the loop
      iterates it in an order Python does not fix (string hashes are salted
      per process), so the embedding takes the iteration order as an
      argument [db] and only asks that it enumerates that set;
    - the vector store is the list of its records; its ids are its keys. *)

From Stdlib Require Import String List ZArith Bool Lia Arith.
Import ListNotations.
Open Scope Z_scope.

(* ------------------------------------------------------------------ *)
(** ** Data model *)

Record SitemapEntry := mkEntry {
  url : string;
  lastmod : Z
}.

(** One stored chunk, projected on the metadata read by
    [filter_sitemap_entries]: [doc.id], [metadata['source']],
    [metadata['lastmod']]. *)
Record Meta := mkMeta {
  mid : string;
  source : string;
  mlastmod : Z
}.

Definition pair_of (m : Meta) : string * Z := (source m, mlastmod m).

(** [db_entries = {(m["source"], m["lastmod"]) for m in metadata_list}]:
    [db] is one iteration order of that set. *)
Definition db_enum (db : list (string * Z)) (metadata_list : list Meta) : Prop :=
  NoDup db /\ incl db (map pair_of metadata_list) /\ incl (map pair_of metadata_list) db.

(* ------------------------------------------------------------------ *)
(** ** Reconciliation loop of [filter_sitemap_entries] (lines 54-78) *)

(** The inner [for (db_url, db_lastmod) in db_entries] loop:
    0 = new, 1 = exists (no update), 2 = exists but updated. *)
Fixpoint vector_flag (db : list (string * Z)) (entry : SitemapEntry) : nat :=
  match db with
  | [] => 0%nat
  | (db_url, db_lastmod) :: db' =>
      if String.eqb (url entry) db_url then
        if Z.leb (lastmod entry) db_lastmod then 1%nat else 2%nat
      else vector_flag db' entry
  end.

(** [for metadata in metadata_list: if metadata["source"] == entry.url:
       delete_ids.append(metadata["id"])] *)
Fixpoint append_ids (metadata_list : list Meta) (u : string) (delete_ids : list string)
  : list string :=
  match metadata_list with
  | [] => delete_ids
  | m :: ms =>
      append_ids ms u
        (if String.eqb (source m) u then delete_ids ++ [mid m] else delete_ids)
  end.

(** The outer [for entry in sitemap_entries] loop, with the two
    accumulators [new_entries] and [delete_ids]. *)
Fixpoint filter_loop (db : list (string * Z)) (metadata_list : list Meta)
    (sitemap_entries : list SitemapEntry)
    (new_entries : list SitemapEntry) (delete_ids : list string)
  : list SitemapEntry * list string :=
  match sitemap_entries with
  | [] => (new_entries, delete_ids)
  | entry :: rest =>
      match vector_flag db entry with
      | 0%nat => filter_loop db metadata_list rest (new_entries ++ [entry]) delete_ids
      | 1%nat => filter_loop db metadata_list rest new_entries delete_ids
      | _ =>
          filter_loop db metadata_list rest (new_entries ++ [entry])
            (append_ids metadata_list (url entry) delete_ids)
      end
  end.

(** [(to_index, to_delete)] computed from empty accumulators. *)
Definition reconcile (db : list (string * Z)) (metadata_list : list Meta)
    (sitemap_entries : list SitemapEntry) : list SitemapEntry * list string :=
  filter_loop db metadata_list sitemap_entries [] [].

(** Ids of all records of one url, in [metadata_list] order. *)
Definition ids_of (metadata_list : list Meta) (u : string) : list string :=
  append_ids metadata_list u [].

(** What one entry adds to the two lists. *)
Definition contribution (db : list (string * Z)) (metadata_list : list Meta)
    (entry : SitemapEntry) : list SitemapEntry * list string :=
  match vector_flag db entry with
  | 0%nat => ([entry], [])
  | 1%nat => ([], [])
  | _ => ([entry], ids_of metadata_list (url entry))
  end.

(* ------------------------------------------------------------------ *)
(** ** The vector store *)

(** Modelled from the spec (VectorStoreManager.delete_by_ids is not part of
    the sources): deleting a list of ids removes every record whose id is
    listed; an absent id is not an error. *)
Definition delete_by_ids (ids : list string) (store : list Meta) : list Meta :=
  filter (fun m => negb (existsb (String.eqb (mid m)) ids)) store.

(** Records of one url. *)
Definition records_of (u : string) (store : list Meta) : list Meta :=
  filter (fun m => String.eqb (source m) u) store.

(* ------------------------------------------------------------------ *)
(** ** [filter_sitemap_entries] with its checks and its I/O *)

(** A Python value as far as configurations are read: a [list] or a
    [tuple] value behaves like a dict here (it has [.copy()]). *)
Inductive PyVal :=
| PNone
| PBool (b : bool)
| PStr (s : string)
| PDict (d : list (string * PyVal)).

Definition py_truthy (v : PyVal) : bool :=
  match v with
  | PNone => false
  | PBool b => b
  | PStr s => negb (String.eqb s "")
  | PDict d => match d with [] => false | _ => true end
  end.

(** [d.get(k)] on a dict given as its list of items (keys are distinct). *)
Fixpoint lookup {A} (k : string) (l : list (string * A)) : option A :=
  match l with
  | [] => None
  | (k', v) :: l' => if String.eqb k k' then Some v else lookup k l'
  end.

Definition lookup_or (k : string) (d : list (string * PyVal)) (default : PyVal) : PyVal :=
  match lookup k d with Some v => v | None => default end.

(** [d[k] = v]: an existing key keeps its place, a new one goes last. *)
Fixpoint dict_set (k : string) (v : PyVal) (d : list (string * PyVal))
  : list (string * PyVal) :=
  match d with
  | [] => [(k, v)]
  | (k', v') :: d' => if String.eqb k k' then (k, v) :: d' else (k', v') :: dict_set k v d'
  end.

(** A [RunnableConfig] is a dict. *)
Definition RunnableConfig := list (string * PyVal).

Definition mem (k : string) (l : list string) : bool := existsb (String.eqb k) l.

Definition is_none (v : PyVal) : bool := match v with PNone => true | _ => false end.

Definition has_copy (v : PyVal) : bool := match v with PDict _ => true | _ => false end.

(** langchain_core's [CONFIG_KEYS] and [COPIABLE_KEYS]. *)
Definition config_keys : list string :=
  ["tags"; "metadata"; "callbacks"; "run_name"; "max_concurrency";
   "recursion_limit"; "configurable"; "run_id"]%string.

Definition copiable_keys : list string :=
  ["tags"; "metadata"; "callbacks"; "configurable"]%string.

(** [ensure_config(config)["configurable"]], outside any runnable context:
    [None] values are dropped; a copiable key whose value has no
    [.copy()] raises ([None]); ["configurable"] defaults to [{}]; every
    top-level key that is not a config key is then written into it. *)
Definition ensure_configurable (config : option RunnableConfig)
  : option (list (string * PyVal)) :=
  match config with
  | None => Some []
  | Some c =>
      if existsb (fun kv => mem (fst kv) copiable_keys && negb (is_none (snd kv))
                            && negb (has_copy (snd kv))) c
      then None
      else
        let base := match lookup "configurable" c with Some (PDict d) => d | _ => [] end in
        Some (fold_left (fun d kv => dict_set (fst kv) (snd kv) d)
                (filter (fun kv => negb (mem (fst kv) config_keys) && negb (is_none (snd kv))) c)
                base)
  end.

(** [LoaderConfiguration.from_runnable_config(config).index_name], or
    [None] when the call raises. [LoaderConfiguration] is not part of the
    sources: it is taken to inherit [IndexConfiguration.from_runnable_config]
    and its [index_name] field with default ["default"]. *)
Definition index_name_of (config : RunnableConfig) : option PyVal :=
  match ensure_configurable (Some config) with
  | None => None
  | Some configurable => Some (lookup_or "index_name" configurable (PStr "default"))
  end.

(** Python truthiness of [config : Optional[RunnableConfig]]. *)
Definition config_truthy (config : option RunnableConfig) : bool :=
  match config with
  | None | Some [] => false
  | Some _ => true
  end.

(** A document returned by [similarity_search]; a metadata key may be
    absent. A stored ["lastmod"] string is given by what
    [datetime.fromisoformat] makes of it: a timestamp, or [None] when it
    is not in ISO format. *)
Record Doc := mkDoc {
  doc_id : string;
  doc_source : option string;
  doc_lastmod : option (option Z)
}.

(** An element of [metadata_list]: its ["lastmod"] is still the string. *)
Record RawMeta := mkRawMeta {
  raw_id : string;
  raw_source : string;
  raw_lastmod : option Z
}.

(** The list comprehension building [metadata_list]; a missing key raises
    [KeyError] ([None]). *)
Fixpoint extract_metadata (results : list Doc) : option (list RawMeta) :=
  match results with
  | [] => Some []
  | d :: ds =>
      match doc_source d, doc_lastmod d, extract_metadata ds with
      | Some s, Some l, Some ms => Some (mkRawMeta (doc_id d) s l :: ms)
      | _, _, _ => None
      end
  end.

(** [datetime.fromisoformat(metadata["lastmod"])] over [metadata_list],
    outside the [try]; [None] when one of them raises [ValueError]. *)
Fixpoint parse_lastmods (metadata_list : list RawMeta) : option (list Meta) :=
  match metadata_list with
  | [] => Some []
  | r :: rs =>
      match raw_lastmod r, parse_lastmods rs with
      | Some l, Some ms => Some (mkMeta (raw_id r) (raw_source r) l :: ms)
      | _, _ => None
      end
  end.

Inductive PyError :=
| ValueError (msg : string)
| RuntimeError (msg : string)
| AttributeError (msg : string).

Inductive Result (A : Type) :=
| Ok (a : A)
| Err (e : PyError).
Arguments Ok {A} a.
Arguments Err {A} e.

(** Observable I/O of the node, in order. *)
Inductive Effect :=
| Connect (index_name : PyVal)           (* VectorStoreManager(..., skip_connection_check=False) *)
| Search (k : nat)                       (* vector_store.similarity_search(query="", k=k) *)
| DeleteIds (ids : list string).         (* vsm.delete_by_ids(delete_ids) *)

(** [k = 1 if vsm.total_count == 0 else vsm.total_count] *)
Definition k_of (total_count : nat) : nat :=
  if Nat.eqb total_count 0 then 1%nat else total_count.

(** The [try] block: [None] when [similarity_search] or a metadata lookup
    raises (re-raised as [RuntimeError]). *)
Definition fetch_metadata (similarity_search : nat -> option (list Doc)) (k : nat)
  : option (list RawMeta) :=
  match similarity_search k with
  | None => None
  | Some results => extract_metadata results
  end.

(** The node. [iter_set] is the construction of [db_entries] together with
    its iteration order; [total_count] is [vsm.total_count];
    [similarity_search k] is [None] when the call raises. *)
Definition filter_sitemap_entries
    (iter_set : list Meta -> list (string * Z))
    (total_count : nat)
    (similarity_search : nat -> option (list Doc))
    (sitemap_entries : option (list SitemapEntry))
    (config : option RunnableConfig)
  : Result (list SitemapEntry) * list Effect :=
  match sitemap_entries with
  | None => (Err (ValueError "No sitemap entries found in state."), [])
  | Some entries =>
      match config with
      | Some cfg =>
          if config_truthy config then
            match index_name_of cfg with
            | None => (Err (AttributeError "object has no attribute 'copy' or 'items'"), [])
            | Some idx =>
                let k := k_of total_count in
                match fetch_metadata similarity_search k with
                | None => (Err (RuntimeError "Failed to retrieve documents"), [Connect idx; Search k])
                | Some raw_metadata =>
                    match parse_lastmods raw_metadata with
                    | None => (Err (ValueError "Invalid isoformat string"), [Connect idx; Search k])
                    | Some metadata_list =>
                        let '(new_entries, delete_ids) :=
                          reconcile (iter_set metadata_list) metadata_list entries in
                        (Ok new_entries, [Connect idx; Search k; DeleteIds delete_ids])
                    end
                end
            end
          else (Err (ValueError "Configuration required to run <filter_sitemap_entries>."), [])
      | None => (Err (ValueError "Configuration required to run <filter_sitemap_entries>."), [])
      end
  end.

(* ------------------------------------------------------------------ *)
(** ** Batch indexing: [create_documents] and [check_next_batch] *)

Record LoaderState := mkState {
  sitemap_entries : list SitemapEntry;
  documents_count : nat
}.

(** Modelled from the spec (DoclingHTMLLoader and the store's id assignment
    are not part of the sources; the splitter is external): an entry is
    loaded and split into chunks whose ids are [chunk_ids entry], and each
    chunk is stored with metadata [{source: url, lastmod}]. *)
Definition chunks_of (chunk_ids : SitemapEntry -> list string) (e : SitemapEntry)
  : list Meta :=
  map (fun i => mkMeta i (url e) (lastmod e)) (chunk_ids e).

(** One run of the node: the new state, the store after
    [add_documents], and the batch it processed, if any. *)
Definition create_documents (chunk_ids : SitemapEntry -> list string)
    (batch_size : nat) (state : LoaderState) (store : list Meta)
  : LoaderState * list Meta * option (list SitemapEntry) :=
  match sitemap_entries state with
  | [] => (mkState (sitemap_entries state) 0, store, None)
  | entries =>
      let batch := firstn batch_size entries in
      let processed_documents := flat_map (chunks_of chunk_ids) batch in
      (mkState (skipn batch_size entries)
               (documents_count state + length processed_documents),
       store ++ processed_documents,
       Some batch)
  end.

Inductive Route := RCreateDocuments | REnd.

Definition check_next_batch (state : LoaderState) : Route :=
  match sitemap_entries state with
  | [] => REnd
  | _ => RCreateDocuments
  end.

(** The [create_documents] node followed by its conditional edge, run for
    at most [fuel] node executions; returns the final state, the store and
    the batches processed, in order. *)
Fixpoint run_batches (chunk_ids : SitemapEntry -> list string) (batch_size : nat)
    (fuel : nat) (state : LoaderState) (store : list Meta)
  : option (LoaderState * list Meta * list (list SitemapEntry)) :=
  match fuel with
  | O => None
  | S fuel' =>
      let '(state', store', b) := create_documents chunk_ids batch_size state store in
      let done := match b with Some x => [x] | None => [] end in
      match check_next_batch state' with
      | REnd => Some (state', store', done)
      | RCreateDocuments =>
          match run_batches chunk_ids batch_size fuel' state' store' with
          | Some (s, st, bs) => Some (s, st, done ++ bs)
          | None => None
          end
      end
  end.

(** The spec's reading of the loop: take the first [b] entries, repeat on
    the rest. *)
Fixpoint fifo_batches (b : nat) (fuel : nat) (q : list SitemapEntry) : list (list SitemapEntry) :=
  match fuel with
  | O => []
  | S f =>
      match q with
      | [] => []
      | _ => firstn b q :: fifo_batches b f (skipn b q)
      end
  end.

(* ------------------------------------------------------------------ *)
(** ** Slack blocks ([SlackBot._build_slack_message_blocks]) *)

Record QueryResult := mkResult {
  r_url : option string;
  r_summary : option string;
  r_response : option string
}.

Inductive Block :=
| Section (mrkdwn : string)
| Divider.

Definition get_or (o : option string) (d : string) : string :=
  match o with Some s => s | None => d end.

Definition nl : string := String (Ascii.ascii_of_nat 10) EmptyString.
Definition bullet : string :=
  String (Ascii.ascii_of_nat 226) (String (Ascii.ascii_of_nat 128)
    (String (Ascii.ascii_of_nat 162) EmptyString)).

Definition result_text (result : QueryResult) : string :=
  get_or (r_url result) "URL not available" ++ nl ++ nl ++
  bullet ++ " *Summary:* " ++ get_or (r_summary result) "Summary not available" ++ nl ++ nl ++
  bullet ++ " *Hint:* " ++ get_or (r_response result) "Response not available".

Definition build_slack_message_blocks (results : list QueryResult) : list Block :=
  fold_left (fun blocks result => blocks ++ [Section (result_text result); Divider])
    (firstn 20 results)
    [Section "*Analysis Results:*"; Divider].

(* ------------------------------------------------------------------ *)
(** ** A decision procedure for [db_enum] on concrete inputs *)

Definition pair_eqb (p q : string * Z) : bool :=
  String.eqb (fst p) (fst q) && Z.eqb (snd p) (snd q).

Fixpoint nodup_b (l : list (string * Z)) : bool :=
  match l with
  | [] => true
  | x :: l' => negb (existsb (pair_eqb x) l') && nodup_b l'
  end.

Definition incl_b (l1 l2 : list (string * Z)) : bool :=
  forallb (fun p => existsb (pair_eqb p) l2) l1.

Definition db_enum_b (db : list (string * Z)) (metadata_list : list Meta) : bool :=
  nodup_b db && incl_b db (map pair_of metadata_list)
  && incl_b (map pair_of metadata_list) db.

(** The full run of the loader graph after the sitemap is parsed:
    reconciliation, deletion of [to_delete], then the batch loop over
    [to_index]. The existing-record fetch returns the whole store. *)
Definition full_run (chunk_ids : SitemapEntry -> list string) (batch_size : nat)
    (db : list (string * Z)) (store : list Meta) (sitemap : list SitemapEntry)
  : option (list Meta) :=
  let '(to_index, to_delete) := reconcile db store sitemap in
  match run_batches chunk_ids batch_size (S (length to_index))
          (mkState to_index 0) (delete_by_ids to_delete store) with
  | Some (_, store', _) => Some store'
  | None => None
  end.

(* ------------------------------------------------------------------ *)
(** ** The Slack message handler ([SlackBot.register_event_listeners]) *)

(** A Python [str] as its sequence of code points. *)
Definition py_str := list nat.

(** [str.isspace] on one code point: the code points Python's [strip()]
    removes. *)
Definition py_isspace (c : nat) : bool :=
  existsb (Nat.eqb c)
    [9; 10; 11; 12; 13; 28; 29; 30; 31; 32; 133; 160; 5760;
     8192; 8193; 8194; 8195; 8196; 8197; 8198; 8199; 8200; 8201; 8202;
     8232; 8233; 8239; 8287; 12288]%nat.

Fixpoint py_lstrip (s : py_str) : py_str :=
  match s with
  | [] => []
  | c :: s' => if py_isspace c then py_lstrip s' else s
  end.

(** [s.strip()] *)
Definition py_strip (s : py_str) : py_str := rev (py_lstrip (rev (py_lstrip s))).

(** The keys of a Slack message event read by the handler. *)
Record SlackEvent := mkEvent {
  ev_channel_type : option string;
  ev_bot_id : option string;
  ev_text : option py_str;
  ev_channel : option string;
  ev_user : option string
}.

(** [body.get("event", {})] *)
Definition body_event (body : option SlackEvent) : SlackEvent :=
  match body with
  | Some ev => ev
  | None => mkEvent None None None None None
  end.

(** [event.get('text', '')] *)
Definition event_text (event : SlackEvent) : py_str :=
  match ev_text event with Some t => t | None => [] end.

(** Outcome of [_is_valid_event]: a boolean, or a raised [ValueError]. *)
Inductive Validity :=
| VFalse
| VTrue
| VRaise (msg : string).

Definition is_valid_event (event : SlackEvent) : Validity :=
  if negb (match ev_channel_type event with
           | Some ct => existsb (String.eqb ct) ["im"; "group"]%string
           | None => false
           end) then VFalse
  else if (match ev_bot_id event with
           | Some b => negb (String.eqb b "")
           | None => false
           end) then VFalse
  else match py_strip (event_text event) with
       | [] => VRaise "Message text is empty."
       | _ => VTrue
       end.

(** What [rag_system.get_answer] does: results, or a raised exception. *)
Inductive RagOutcome :=
| RagResults (results : list QueryResult)
| RagValueError (msg : string)
| RagOtherError.

(** The [response] of [_generate_response]: plain text, or a dict with
    ["blocks"]. *)
Inductive Response :=
| RText (text : string)
| RBlocks (blocks : list Block).

Definition generate_response (results : list QueryResult) : Response :=
  match results with
  | [] => RText "No relevant information found for your query."
  | _ => RBlocks (build_slack_message_blocks results)
  end.

(** Calls the handler makes, in order. [PostResponse] is the
    [chat_postMessage] of [_send_response], with [blocks=] for a dict
    with ["blocks"] and [text=] otherwise. *)
Inductive SlackAction :=
| Ack
| PostPlaceholder (channel : string) (user : option string)
| GetAnswer (text : py_str)
| PostResponse (channel : string) (response : Response)
| Say (msg : string).

Definition unexpected_error : string :=
  "An unexpected error occurred. Please try again later.".

(** [handle_direct_message]. [placeholder_ok] and [post_ok] say whether
    the two [chat_postMessage] calls return or raise; [get_answer] is the
    RAG system. A missing ["channel"] key makes [event['channel']] raise
    [KeyError], reported as an unexpected error. *)
Definition handle_direct_message (placeholder_ok post_ok : bool)
    (get_answer : py_str -> RagOutcome) (body : option SlackEvent) : list SlackAction :=
  let event := body_event body in
  Ack ::
  match is_valid_event event with
  | VFalse => []
  | VRaise msg => [Say msg]
  | VTrue =>
      match ev_channel event with
      | None => [Say unexpected_error]
      | Some channel_id =>
          let text := py_strip (event_text event) in
          PostPlaceholder channel_id (ev_user event) ::
          if negb placeholder_ok then [Say "Unable to send 'Thinking...' placeholder."]
          else
            GetAnswer text ::
            match get_answer text with
            | RagValueError msg => [Say msg]
            | RagOtherError => [Say unexpected_error]
            | RagResults results =>
                PostResponse channel_id (generate_response results) ::
                if post_ok then [] else [Say "Unable to send the Slack response."]
            end
      end
  end.

(* ------------------------------------------------------------------ *)
(** ** [IndexConfiguration.from_runnable_config] *)

Record IndexConfiguration := mkIndexConfiguration {
  cfg_user_id : PyVal;
  cfg_embedding_model : PyVal;
  cfg_retriever_provider : PyVal;
  cfg_search_kwargs : PyVal;
  cfg_index_name : PyVal
}.

Definition index_fields : list string :=
  ["user_id"; "embedding_model"; "retriever_provider"; "search_kwargs"; "index_name"]%string.

(** The class built from the items of [configurable] whose key is an
    [init] field, after [ensure_config]; [config.get("configurable") or {}]
    is then always a dict. [None] when the call raises. *)
Definition from_runnable_config (config : option (list (string * PyVal)))
  : option IndexConfiguration :=
  match ensure_configurable config with
  | None => None
  | Some configurable =>
      let kwargs := filter (fun kv => existsb (String.eqb (fst kv)) index_fields) configurable in
      Some (mkIndexConfiguration
              (lookup_or "user_id" kwargs (PStr "test"))
              (lookup_or "embedding_model" kwargs (PStr "openai/text-embedding-3-small"))
              (lookup_or "retriever_provider" kwargs (PStr "pinecone"))
              (lookup_or "search_kwargs" kwargs (PDict []))
              (lookup_or "index_name" kwargs (PStr "default")))
  end.

(** The event comes from a direct or group message. *)
Definition is_dm (event : SlackEvent) : Prop :=
  exists ct, ev_channel_type event = Some ct /\ (ct = "im"%string \/ ct = "group"%string).

(** The event carries a truthy ["bot_id"]. *)
Definition from_bot (event : SlackEvent) : Prop :=
  exists b, ev_bot_id event = Some b /\ b <> ""%string.

(* ================================================================== *)
(** * Lemmas *)

Lemma pair_eqb_true : forall p q, pair_eqb p q = true <-> p = q.
Proof.
  intros [a x] [b y]; unfold pair_eqb; simpl.
  rewrite andb_true_iff, String.eqb_eq, Z.eqb_eq.
  split; [intros [-> ->]; reflexivity | intros H; inversion H; auto].
Qed.

Lemma existsb_pair_eqb : forall p l, existsb (pair_eqb p) l = true <-> In p l.
Proof.
  intros p l; rewrite existsb_exists; split.
  - intros [q [Hq He]]; apply pair_eqb_true in He; subst; exact Hq.
  - intros H; exists p; split; [exact H | apply pair_eqb_true; reflexivity].
Qed.

Lemma nodup_b_sound : forall l, nodup_b l = true -> NoDup l.
Proof.
  induction l as [|x l IH]; simpl; intros H; [constructor|].
  apply andb_true_iff in H as [H1 H2]; constructor; auto.
  intros Hin; apply (existsb_pair_eqb x l) in Hin; rewrite Hin in H1; discriminate.
Qed.

Lemma incl_b_sound : forall l1 l2, incl_b l1 l2 = true -> incl l1 l2.
Proof.
  intros l1 l2 H p Hp; unfold incl_b in H; rewrite forallb_forall in H.
  apply existsb_pair_eqb, H, Hp.
Qed.

Lemma db_enum_b_sound : forall db ml, db_enum_b db ml = true -> db_enum db ml.
Proof.
  intros db ml H; unfold db_enum_b in H.
  apply andb_true_iff in H as [H H3]; apply andb_true_iff in H as [H1 H2].
  repeat split; auto using nodup_b_sound, incl_b_sound.
Qed.

(** *** Accumulators *)

Lemma append_ids_acc : forall ml u acc, append_ids ml u acc = acc ++ append_ids ml u [].
Proof.
  induction ml as [|m ml IH]; intros u acc; simpl; [rewrite app_nil_r; reflexivity|].
  destruct (String.eqb (source m) u); rewrite IH; [rewrite (IH u [mid m]), app_assoc|];
    reflexivity.
Qed.

Lemma ids_of_spec : forall ml u, ids_of ml u = map mid (records_of u ml).
Proof.
  induction ml as [|m ml IH]; intros u; unfold ids_of in *; simpl; [reflexivity|].
  rewrite append_ids_acc, IH; unfold records_of; simpl.
  destruct (String.eqb (source m) u); reflexivity.
Qed.

Lemma filter_loop_acc : forall db ml es n d,
  filter_loop db ml es n d =
  (n ++ fst (reconcile db ml es), d ++ snd (reconcile db ml es)).
Proof.
  unfold reconcile; induction es as [|e es IH]; intros n d; simpl.
  - rewrite !app_nil_r; reflexivity.
  - destruct (vector_flag db e) as [|[|k]].
    + rewrite IH, (IH [e]); simpl; rewrite <- app_assoc; reflexivity.
    + rewrite IH, (IH [] []); simpl; reflexivity.
    + rewrite IH, (IH [e]); simpl.
      rewrite (append_ids_acc ml (url e) d), (append_ids_acc ml (url e) []).
      simpl; rewrite <- !app_assoc; reflexivity.
Qed.

Lemma reconcile_cons : forall db ml e es,
  reconcile db ml (e :: es) =
  (fst (contribution db ml e) ++ fst (reconcile db ml es),
   snd (contribution db ml e) ++ snd (reconcile db ml es)).
Proof.
  intros db ml e es; unfold reconcile at 1; simpl; unfold contribution.
  destruct (vector_flag db e) as [|[|k]]; rewrite filter_loop_acc; reflexivity.
Qed.

Lemma reconcile_app : forall db ml l1 l2,
  reconcile db ml (l1 ++ l2) =
  (fst (reconcile db ml l1) ++ fst (reconcile db ml l2),
   snd (reconcile db ml l1) ++ snd (reconcile db ml l2)).
Proof.
  induction l1 as [|e l1 IH]; intros l2; simpl.
  - destruct (reconcile db ml l2); reflexivity.
  - rewrite !reconcile_cons, IH; simpl; rewrite <- !app_assoc; reflexivity.
Qed.

Lemma reconcile_concat : forall db ml es,
  reconcile db ml es =
  (concat (map (fun e => fst (contribution db ml e)) es),
   concat (map (fun e => snd (contribution db ml e)) es)).
Proof.
  induction es as [|e es IH]; [reflexivity|].
  rewrite reconcile_cons, IH; reflexivity.
Qed.

Lemma reconcile_middle : forall db ml pre e post,
  reconcile db ml (pre ++ e :: post) =
  (fst (reconcile db ml pre) ++ fst (contribution db ml e) ++ fst (reconcile db ml post),
   snd (reconcile db ml pre) ++ snd (contribution db ml e) ++ snd (reconcile db ml post)).
Proof.
  intros; rewrite reconcile_app, reconcile_cons; reflexivity.
Qed.

(** *** The inner loop *)

Lemma vector_flag_none : forall db e,
  (forall p, In p db -> fst p <> url e) -> vector_flag db e = 0%nat.
Proof.
  induction db as [|[u l] db IH]; intros e H; simpl; [reflexivity|].
  destruct (String.eqb (url e) u) eqn:E.
  - apply String.eqb_eq in E; exfalso; apply (H (u, l)); simpl; auto.
  - apply IH; intros p Hp; apply H; simpl; auto.
Qed.

Lemma vector_flag_zero : forall db e,
  vector_flag db e = 0%nat -> forall p, In p db -> fst p <> url e.
Proof.
  induction db as [|[u l] db IH]; intros e H p Hp; simpl in *; [contradiction|].
  destruct (String.eqb (url e) u) eqn:E.
  - destruct (Z.leb (lastmod e) l); discriminate.
  - destruct Hp as [<-|Hp]; [|eapply IH; eauto].
    simpl; intros Heq; rewrite Heq, String.eqb_refl in E; discriminate.
Qed.

(** A non-zero flag comes from a pair of [db] with the entry's url. *)
Lemma vector_flag_found : forall db e,
  vector_flag db e <> 0%nat ->
  exists l, In (url e, l) db /\
    vector_flag db e = (if Z.leb (lastmod e) l then 1%nat else 2%nat).
Proof.
  induction db as [|[u l] db IH]; intros e H; simpl in *; [congruence|].
  destruct (String.eqb (url e) u) eqn:E.
  - apply String.eqb_eq in E; subst u; exists l; split; auto.
  - destruct (IH e H) as [l' [Hin Hf]]; exists l'; split; auto.
Qed.

(** ... and that pair is the first one of [db] with the entry's url. *)
Lemma vector_flag_first : forall db e,
  vector_flag db e <> 0%nat ->
  exists db1 l db2, db = db1 ++ (url e, l) :: db2 /\
    (forall p, In p db1 -> fst p <> url e) /\
    vector_flag db e = (if Z.leb (lastmod e) l then 1%nat else 2%nat).
Proof.
  induction db as [|[u l] db IH]; intros e H; simpl in *; [congruence|].
  destruct (String.eqb (url e) u) eqn:E.
  - apply String.eqb_eq in E; subst u.
    exists [], l, db; split; [reflexivity|split; [intros p []|reflexivity]].
  - destruct (IH e H) as [db1 [l' [db2 [Hdb [Hn Hf]]]]].
    exists ((u, l) :: db1), l', db2; split; [rewrite Hdb; reflexivity|split; [|exact Hf]].
    intros p [<-|Hp]; [|auto].
    simpl; intros Heq; subst u; rewrite String.eqb_refl in E; discriminate.
Qed.

Lemma vector_flag_le2 : forall db e, (vector_flag db e <= 2)%nat.
Proof.
  induction db as [|[u l] db IH]; intros e; simpl; [lia|].
  destruct (String.eqb (url e) u); [destruct (Z.leb (lastmod e) l)|]; auto.
Qed.

(** When every pair of [db] for the url is at or after the entry, the
    entry is unchanged. *)
Lemma vector_flag_one : forall db e,
  (exists p, In p db /\ fst p = url e) ->
  (forall p, In p db -> fst p = url e -> lastmod e <= snd p) ->
  vector_flag db e = 1%nat.
Proof.
  intros db e Hex Hall.
  destruct (vector_flag db e) eqn:F.
  - destruct Hex as [p [Hp Hu]]; exfalso; eapply vector_flag_zero; eauto.
  - destruct (vector_flag_found db e) as [l [Hin Hf]]; [congruence|].
    rewrite F in Hf; specialize (Hall _ Hin eq_refl); simpl in Hall.
    destruct (Z.leb (lastmod e) l) eqn:Z; [exact Hf|].
    apply Z.leb_gt in Z; lia.
Qed.

(** *** Membership in [to_index] and [to_delete] *)

Lemma in_ids_of : forall ml u i,
  In i (ids_of ml u) <-> exists m, In m ml /\ source m = u /\ mid m = i.
Proof.
  intros ml u i; rewrite ids_of_spec, in_map_iff; unfold records_of; split.
  - intros [m [<- Hm]]; apply filter_In in Hm as [Hm Hs];
      apply String.eqb_eq in Hs; eauto.
  - intros [m [Hm [Hs <-]]]; exists m; split; auto;
      apply filter_In; split; auto; apply String.eqb_eq; auto.
Qed.

Lemma in_to_delete : forall db ml es i,
  In i (snd (reconcile db ml es)) <->
  exists e m, In e es /\ vector_flag db e = 2%nat /\ In m ml /\ source m = url e /\ mid m = i.
Proof.
  intros db ml es i; rewrite reconcile_concat; simpl; rewrite in_concat; split.
  - intros [l [Hl Hi]]; apply in_map_iff in Hl as [e [<- He]].
    unfold contribution in Hi; pose proof (vector_flag_le2 db e) as Hle.
    destruct (vector_flag db e) as [|[|[|k]]] eqn:F; simpl in Hi; try contradiction; [|lia].
    apply in_ids_of in Hi as [m [Hm [Hs Hid]]]; exists e, m; auto.
  - intros [e [m [He [F [Hm [Hs Hid]]]]]].
    exists (snd (contribution db ml e)); split; [apply in_map_iff; eauto|].
    unfold contribution; rewrite F; apply in_ids_of; eauto.
Qed.

Lemma in_to_index : forall db ml es x,
  In x (fst (reconcile db ml es)) <-> In x es /\ vector_flag db x <> 1%nat.
Proof.
  intros db ml es x; rewrite reconcile_concat; simpl; rewrite in_concat; split.
  - intros [l [Hl Hi]]; apply in_map_iff in Hl as [e [<- He]].
    unfold contribution in Hi.
    destruct (vector_flag db e) as [|[|k]] eqn:F; simpl in Hi; try contradiction;
      destruct Hi as [<-|[]]; rewrite F; auto.
  - intros [Hx F]; exists (fst (contribution db ml x)); split; [apply in_map_iff; eauto|].
    unfold contribution; destruct (vector_flag db x) as [|[|k]]; simpl; auto; congruence.
Qed.

Lemma in_delete_by_ids : forall ids store m,
  In m (delete_by_ids ids store) <-> In m store /\ ~ In (mid m) ids.
Proof.
  intros ids store m; unfold delete_by_ids; rewrite filter_In, negb_true_iff.
  split; intros [Hm H]; split; auto.
  - intros Hi; assert (existsb (String.eqb (mid m)) ids = true) as E
      by (apply existsb_exists; exists (mid m); split; auto; apply String.eqb_refl).
    congruence.
  - destruct (existsb (String.eqb (mid m)) ids) eqn:E; auto.
    apply existsb_exists in E as [i [Hi Ei]]; apply String.eqb_eq in Ei; subst; contradiction.
Qed.

Lemma NoDup_map_inj : forall {A B} (f : A -> B) l x y,
  NoDup (map f l) -> In x l -> In y l -> f x = f y -> x = y.
Proof.
  intros A B f l; induction l as [|a l IH]; intros x y Hnd Hx Hy Hf; [contradiction|].
  simpl in Hnd; inversion Hnd as [|? ? Hnot Hnd']; subst.
  destruct Hx as [<-|Hx], Hy as [<-|Hy]; auto.
  - exfalso; apply Hnot; rewrite Hf; apply in_map; auto.
  - exfalso; apply Hnot; rewrite <- Hf; apply in_map; auto.
Qed.

Lemma filter_filter_same : forall {A} (f g : A -> bool) l,
  (forall x, In x l -> f x = true -> g x = true) ->
  filter f (filter g l) = filter f l.
Proof.
  intros A f g; induction l as [|a l IH]; intros H; simpl; [reflexivity|].
  destruct (g a) eqn:G; simpl.
  - destruct (f a); rewrite IH; auto; intros; apply H; simpl; auto.
  - destruct (f a) eqn:F; [rewrite (H a) in G; simpl; auto; discriminate|].
    apply IH; intros; apply H; simpl; auto.
Qed.

Lemma nil_of_no_member : forall {A} (l : list A), (forall x, ~ In x l) -> l = [].
Proof. intros A [|a l] H; [reflexivity|exfalso; apply (H a); simpl; auto]. Qed.

(** The store after reconciliation's deletion, url by url. *)
Lemma records_after_delete : forall db ml es u,
  NoDup (map mid ml) ->
  records_of u (delete_by_ids (snd (reconcile db ml es)) ml) =
  if existsb (fun e => String.eqb (url e) u && Nat.eqb (vector_flag db e) 2) es
  then [] else records_of u ml.
Proof.
  intros db ml es u Hnd.
  destruct (existsb _ es) eqn:Ex.
  - apply existsb_exists in Ex as [e [He Ee]].
    apply andb_true_iff in Ee as [Eu Ef]; apply String.eqb_eq in Eu; apply Nat.eqb_eq in Ef.
    apply nil_of_no_member; intros m Hm; unfold records_of in Hm.
    apply filter_In in Hm as [Hm Hs]; apply String.eqb_eq in Hs.
    apply in_delete_by_ids in Hm as [Hm Hnot]; apply Hnot, in_to_delete.
    exists e, m; repeat split; congruence.
  - unfold records_of, delete_by_ids; apply filter_filter_same.
    intros m Hm Hs; apply String.eqb_eq in Hs; apply negb_true_iff.
    destruct (existsb (String.eqb (mid m)) _) eqn:E; auto.
    apply existsb_exists in E as [i [Hi Ei]]; apply String.eqb_eq in Ei; subst i.
    apply in_to_delete in Hi as [e [m' [He [F [Hm' [Hs' Hid]]]]]].
    assert (m' = m) by (apply (NoDup_map_inj mid ml); auto); subst m'.
    assert (existsb (fun e => String.eqb (url e) u && Nat.eqb (vector_flag db e) 2) es = true)
      by (apply existsb_exists; exists e; split; auto;
          rewrite F, <- Hs', Hs, String.eqb_refl; reflexivity).
    congruence.
Qed.

(* ================================================================== *)
(** * Reconciliation claims *)

(** C1: a sitemap entry whose url has no stored record gets flag 0 (New),
    is appended to [to_index] at its position, and adds no id to
    [to_delete]; on an empty index, [[{url:"a", lastmod:2024-01-01}]]
    gives [to_index = [a]] and [to_delete = []]. *)
Theorem reconcile_new_entry : forall db metadata_list pre e post,
  db_enum db metadata_list ->
  (forall m, In m metadata_list -> source m <> url e) ->
  vector_flag db e = 0%nat /\
  reconcile db metadata_list (pre ++ e :: post) =
    (fst (reconcile db metadata_list pre) ++ e :: fst (reconcile db metadata_list post),
     snd (reconcile db metadata_list pre) ++ snd (reconcile db metadata_list post)) /\
  (forall db0, db_enum db0 [] ->
     reconcile db0 [] [mkEntry "a" 20240101] = ([mkEntry "a" 20240101], [])).
Proof.
  intros db ml pre e post [_ [Hincl _]] Hnone.
  assert (F : vector_flag db e = 0%nat).
  { apply vector_flag_none; intros p Hp.
    apply Hincl, in_map_iff in Hp as [m [<- Hm]]; apply Hnone; auto. }
  split; [exact F|split].
  - rewrite reconcile_middle; unfold contribution; rewrite F; reflexivity.
  - intros db0 [_ [Hi _]].
    destruct db0 as [|p db0]; [reflexivity|].
    exfalso; apply (Hi p); simpl; auto.
Qed.

(** C2 (amended): an entry with stored records for its url is compared
    with the lastmod of one of them, the first [(url, lastmod)] pair met
    while iterating the set [db_entries]: at or before it the entry adds
    nothing; after it the entry is appended to [to_index] and the ids of
    all records of the url to [to_delete]. When all records of the url
    carry the same lastmod [L], the comparison is with [L] whatever the
    iteration order. *)
Theorem reconcile_matched_entry : forall db metadata_list pre e post,
  db_enum db metadata_list ->
  (exists m, In m metadata_list /\ source m = url e) ->
  (exists m db1 db2, In m metadata_list /\ source m = url e /\ In (pair_of m) db /\
     db = db1 ++ pair_of m :: db2 /\ (forall p, In p db1 -> fst p <> url e) /\
     reconcile db metadata_list (pre ++ e :: post) =
       (fst (reconcile db metadata_list pre) ++
          (if Z.leb (lastmod e) (mlastmod m) then [] else [e]) ++
          fst (reconcile db metadata_list post),
        snd (reconcile db metadata_list pre) ++
          (if Z.leb (lastmod e) (mlastmod m) then []
           else map mid (records_of (url e) metadata_list)) ++
          snd (reconcile db metadata_list post))) /\
  (forall L, (forall m, In m metadata_list -> source m = url e -> mlastmod m = L) ->
     reconcile db metadata_list (pre ++ e :: post) =
       (fst (reconcile db metadata_list pre) ++
          (if Z.leb (lastmod e) L then [] else [e]) ++
          fst (reconcile db metadata_list post),
        snd (reconcile db metadata_list pre) ++
          (if Z.leb (lastmod e) L then []
           else map mid (records_of (url e) metadata_list)) ++
          snd (reconcile db metadata_list post))).
Proof.
  intros db ml pre e post [_ [Hincl Hincl']] [m0 [Hm0 Hs0]].
  assert (Hfound : exists m db1 db2, In m ml /\ source m = url e /\
            db = db1 ++ pair_of m :: db2 /\ (forall p, In p db1 -> fst p <> url e) /\
            vector_flag db e = (if Z.leb (lastmod e) (mlastmod m) then 1%nat else 2%nat)).
  { destruct (vector_flag_first db e) as [db1 [l [db2 [Hdb [Hfirst Hf]]]]].
    - intros F; eapply (vector_flag_zero db e F (pair_of m0)); [|exact Hs0].
      apply Hincl', in_map; exact Hm0.
    - assert (Hin : In (url e, l) db) by (rewrite Hdb; apply in_or_app; simpl; auto).
      pose proof (Hincl _ Hin) as Hp; apply in_map_iff in Hp as [m [Hpm Hm]].
      unfold pair_of in Hpm; injection Hpm as Hs Hl.
      exists m, db1, db2; repeat split; auto.
      + unfold pair_of; rewrite Hs, Hl; exact Hdb.
      + rewrite Hl; exact Hf. }
  assert (Hres : forall m, vector_flag db e = (if Z.leb (lastmod e) (mlastmod m) then 1%nat else 2%nat) ->
            reconcile db ml (pre ++ e :: post) =
              (fst (reconcile db ml pre) ++
                 (if Z.leb (lastmod e) (mlastmod m) then [] else [e]) ++ fst (reconcile db ml post),
               snd (reconcile db ml pre) ++
                 (if Z.leb (lastmod e) (mlastmod m) then [] else map mid (records_of (url e) ml)) ++
                 snd (reconcile db ml post))).
  { intros m Hf; rewrite reconcile_middle; unfold contribution; rewrite Hf.
    destruct (Z.leb (lastmod e) (mlastmod m)); [reflexivity|].
    rewrite ids_of_spec; reflexivity. }
  destruct Hfound as [m [db1 [db2 [Hm [Hs [Hdb [Hfirst Hf]]]]]]].
  split.
  - exists m, db1, db2; repeat split; auto.
    rewrite Hdb; apply in_or_app; simpl; auto.
  - intros L HL; rewrite <- (HL m Hm Hs); apply Hres; exact Hf.
Qed.

(** C2 fails as stated when a url's records carry two lastmods: with
    records [x] (lastmod 1) and [y] (lastmod 3) for url ["a"] and the set
    iterated as [[("a",3); ("a",1)]], the entry [a] at lastmod 2 is later
    than record [x] yet is neither re-indexed nor has ids deleted. *)
Lemma reconcile_matched_entry_order_cex :
  db_enum [("a"%string, 3); ("a"%string, 1)] [mkMeta "x" "a" 1; mkMeta "y" "a" 3] /\
  In (mkMeta "x" "a" 1) [mkMeta "x" "a" 1; mkMeta "y" "a" 3] /\
  source (mkMeta "x" "a" 1) = url (mkEntry "a" 2) /\
  mlastmod (mkMeta "x" "a" 1) < lastmod (mkEntry "a" 2) /\
  reconcile [("a"%string, 3); ("a"%string, 1)] [mkMeta "x" "a" 1; mkMeta "y" "a" 3]
    [mkEntry "a" 2] = ([], []).
Proof.
  split; [apply db_enum_b_sound; reflexivity|].
  split; [simpl; auto|]. split; [reflexivity|]. split; [simpl; lia|].
  reflexivity.
Qed.

(** C3 (amended): after reconciliation's deletions, the records of a url
    are all gone when some sitemap entry for it was found stale (flag 2),
    and are all kept as they were otherwise; kept records keep their own
    lastmods. *)
Theorem reconcile_records_after_delete : forall db store sitemap u,
  NoDup (map mid store) ->
  records_of u (delete_by_ids (snd (reconcile db store sitemap)) store) =
  if existsb (fun e => String.eqb (url e) u && Nat.eqb (vector_flag db e) 2) sitemap
  then [] else records_of u store.
Proof.
  intros; apply records_after_delete; assumption.
Qed.

(** C3 fails as stated: with records [x] (lastmod 1) and [y] (lastmod 3)
    for url ["a"], sitemap [[a at 3]] and the set iterated as
    [[("a",3); ("a",1)]], both records survive, so the store keeps a
    record with a stale lastmod and two lastmods for one url. *)
Lemma stale_record_survives_cex :
  db_enum [("a"%string, 3); ("a"%string, 1)] [mkMeta "x" "a" 1; mkMeta "y" "a" 3] /\
  NoDup (map mid [mkMeta "x" "a" 1; mkMeta "y" "a" 3]) /\
  delete_by_ids (snd (reconcile [("a"%string, 3); ("a"%string, 1)]
                        [mkMeta "x" "a" 1; mkMeta "y" "a" 3] [mkEntry "a" 3]))
    [mkMeta "x" "a" 1; mkMeta "y" "a" 3] = [mkMeta "x" "a" 1; mkMeta "y" "a" 3] /\
  mlastmod (mkMeta "x" "a" 1) <> lastmod (mkEntry "a" 3).
Proof.
  split; [apply db_enum_b_sound; reflexivity|].
  split; [repeat constructor; simpl; intuition discriminate|].
  split; [reflexivity|simpl; lia].
Qed.

(** C8 (amended): reconciliation does not deduplicate urls; each
    occurrence contributes on its own, so a url with no stored record is
    appended to [to_index] once per occurrence. *)
Theorem reconcile_per_occurrence : forall db metadata_list sitemap u,
  db_enum db metadata_list ->
  reconcile db metadata_list sitemap =
    (concat (map (fun e => fst (contribution db metadata_list e)) sitemap),
     concat (map (fun e => snd (contribution db metadata_list e)) sitemap)) /\
  ((forall m, In m metadata_list -> source m <> u) ->
   filter (fun e => String.eqb (url e) u) (fst (reconcile db metadata_list sitemap)) =
   filter (fun e => String.eqb (url e) u) sitemap).
Proof.
  intros db ml sitemap u [_ [Hincl _]]; split; [apply reconcile_concat|].
  intros Hnone; induction sitemap as [|e es IH]; [reflexivity|].
  rewrite reconcile_cons; simpl; rewrite filter_app, IH.
  destruct (String.eqb (url e) u) eqn:E.
  - apply String.eqb_eq in E.
    assert (F : vector_flag db e = 0%nat).
    { apply vector_flag_none; intros p Hp.
      apply Hincl, in_map_iff in Hp as [m [<- Hm]]; simpl; rewrite E; apply Hnone; auto. }
    unfold contribution; rewrite F; simpl; rewrite E, String.eqb_refl; reflexivity.
  - unfold contribution; destruct (vector_flag db e) as [|[|k]]; simpl; try rewrite E; reflexivity.
Qed.

(** C8 fails as stated: on an empty index the sitemap [[a at 1; a at 2]]
    puts [a] twice in [to_index], unlike [[a at 2]]. *)
Lemma duplicate_url_indexed_twice_cex :
  db_enum [] [] /\
  reconcile [] [] [mkEntry "a" 1; mkEntry "a" 2] = ([mkEntry "a" 1; mkEntry "a" 2], []) /\
  reconcile [] [] [mkEntry "a" 2] = ([mkEntry "a" 2], []).
Proof.
  split; [apply db_enum_b_sound; reflexivity|split; reflexivity].
Qed.

(** C9: every id in [to_delete] is the id of a stored record whose url is
    that of a sitemap entry with flag 2 (Stale); a stored record whose url
    is in no sitemap entry survives the deletion. *)
Theorem reconcile_deletes_only_stale : forall db store sitemap,
  (forall i, In i (snd (reconcile db store sitemap)) ->
     exists m e, In m store /\ mid m = i /\ In e sitemap /\ source m = url e /\
                 vector_flag db e = 2%nat) /\
  (NoDup (map mid store) ->
   forall m, In m store -> (forall e, In e sitemap -> url e <> source m) ->
   In m (delete_by_ids (snd (reconcile db store sitemap)) store)).
Proof.
  intros db store sitemap; split.
  - intros i Hi; apply in_to_delete in Hi as [e [m [He [F [Hm [Hs Hid]]]]]].
    exists m, e; auto.
  - intros Hnd m Hm Hnot; apply in_delete_by_ids; split; auto.
    intros Hi; apply in_to_delete in Hi as [e [m' [He [F [Hm' [Hs Hid]]]]]].
    assert (m' = m) by (apply (NoDup_map_inj mid store); auto); subst m'.
    apply (Hnot e He); auto.
Qed.

(* ================================================================== *)
(** * The batch loop *)

Section BatchLoop.
Local Open Scope nat_scope.

Variable chunk_ids : SitemapEntry -> list string.

Lemma create_documents_step : forall batch_size st store,
  sitemap_entries st <> [] ->
  create_documents chunk_ids batch_size st store =
    (mkState (skipn batch_size (sitemap_entries st))
       (documents_count st +
        length (flat_map (chunks_of chunk_ids) (firstn batch_size (sitemap_entries st)))),
     store ++ flat_map (chunks_of chunk_ids) (firstn batch_size (sitemap_entries st)),
     Some (firstn batch_size (sitemap_entries st))).
Proof.
  intros batch_size [q c] store H; simpl in *; destruct q; [congruence|reflexivity].
Qed.

Lemma run_batches_S : forall b f st store,
  run_batches chunk_ids b (S f) st store =
  match create_documents chunk_ids b st store with
  | (state', store', bt) =>
      let done := match bt with Some x => [x] | None => [] end in
      match check_next_batch state' with
      | REnd => Some (state', store', done)
      | RCreateDocuments =>
          match run_batches chunk_ids b f state' store' with
          | Some (s, st, bs) => Some (s, st, done ++ bs)
          | None => None
          end
      end
  end.
Proof. reflexivity. Qed.

Lemma fifo_batches_nil : forall b f, fifo_batches b f [] = [].
Proof. intros b [|f]; reflexivity. Qed.

Lemma skipn_shorter : forall {A} b (q : list A),
  1 <= b -> q <> [] -> length (skipn b q) < length q.
Proof.
  intros A b q Hb Hq; rewrite length_skipn; destruct q; [congruence|simpl length; lia].
Qed.

Lemma fifo_batches_fuel : forall b n q f1 f2,
  1 <= b -> length q <= n -> length q <= f1 -> length q <= f2 ->
  fifo_batches b f1 q = fifo_batches b f2 q.
Proof.
  intros b n; induction n as [|n IH]; intros q f1 f2 Hb Hn H1 H2.
  - destruct q; [rewrite !fifo_batches_nil; reflexivity|simpl in Hn; lia].
  - destruct q as [|e q']; [rewrite !fifo_batches_nil; reflexivity|].
    pose proof (skipn_shorter b (e :: q') Hb ltac:(discriminate)) as Hs.
    simpl length in *.
    destruct f1 as [|f1], f2 as [|f2]; try lia.
    simpl fifo_batches; f_equal; apply IH; auto; lia.
Qed.

Lemma fifo_batches_concat : forall b n q,
  1 <= b -> length q <= n -> concat (fifo_batches b n q) = q.
Proof.
  intros b n; induction n as [|n IH]; intros q Hb Hn.
  - destruct q; [reflexivity|simpl in Hn; lia].
  - destruct q as [|e q']; [reflexivity|].
    pose proof (skipn_shorter b (e :: q') Hb ltac:(discriminate)) as Hs.
    simpl length in *; simpl fifo_batches; simpl concat; rewrite IH by (auto; lia).
    apply firstn_skipn.
Qed.

Lemma fifo_batches_length : forall b n q,
  1 <= b -> length q <= n -> length (fifo_batches b n q) = (length q + b - 1) / b.
Proof.
  intros b n; induction n as [|n IH]; intros q Hb Hn.
  - destruct q; [simpl; rewrite Nat.div_small; lia|simpl in Hn; lia].
  - destruct q as [|e q'].
    + simpl; rewrite Nat.div_small; lia.
    + pose proof (skipn_shorter b (e :: q') Hb ltac:(discriminate)) as Hs.
      simpl fifo_batches; simpl length at 1; rewrite IH by (auto; lia).
      rewrite length_skipn; set (len := length (e :: q')).
      assert (1 <= len) by (unfold len; simpl; lia).
      destruct (Nat.le_gt_cases len b).
      * replace (len - b + b - 1) with (b - 1) by lia.
        replace (len + b - 1) with ((len - 1) + 1 * b) by lia.
        rewrite Nat.div_add, !Nat.div_small by lia; reflexivity.
      * replace (len + b - 1) with ((len - b + b - 1) + 1 * b) by lia.
        rewrite Nat.div_add by lia; lia.
Qed.

(** The loop from a state whose queue is [q]. *)
Lemma run_batches_spec : forall b n q c store fuel,
  1 <= b -> length q <= n -> length q < fuel ->
  exists st',
    run_batches chunk_ids b fuel (mkState q c) store =
      Some (st', store ++ flat_map (chunks_of chunk_ids) q, fifo_batches b (length q) q) /\
    sitemap_entries st' = [] /\
    (q <> [] -> documents_count st' = c + length (flat_map (chunks_of chunk_ids) q)).
Proof.
  intros b n; induction n as [|n IH]; intros q c store fuel Hb Hn Hf.
  - destruct q; [|simpl in Hn; lia].
    destruct fuel as [|fuel]; [lia|].
    exists (mkState [] 0); simpl; rewrite app_nil_r; repeat split; congruence.
  - destruct fuel as [|fuel]; [lia|].
    destruct q as [|e q'].
    + exists (mkState [] 0); simpl; rewrite app_nil_r; repeat split; congruence.
    + set (q := e :: q').
      pose proof (skipn_shorter b q Hb ltac:(discriminate)) as Hs.
      rewrite run_batches_S.
      rewrite (create_documents_step b (mkState q c) store ltac:(discriminate)); simpl sitemap_entries.
      unfold check_next_batch; simpl sitemap_entries.
      assert (Hq : flat_map (chunks_of chunk_ids) q =
                   flat_map (chunks_of chunk_ids) (firstn b q) ++
                   flat_map (chunks_of chunk_ids) (skipn b q))
        by (rewrite <- flat_map_app, firstn_skipn; reflexivity).
      assert (Hfb : fifo_batches b (length q) q =
                    firstn b q :: fifo_batches b (length (skipn b q)) (skipn b q)).
      { unfold q at 1; simpl length; simpl fifo_batches; fold q; f_equal.
        apply (fifo_batches_fuel b (length q)); auto; simpl in Hs |- *; lia. }
      destruct (skipn b q) as [|e2 r] eqn:Hsk.
      * exists (mkState [] (c + length (flat_map (chunks_of chunk_ids) (firstn b q)))).
        rewrite Hfb, Hq, fifo_batches_nil, app_nil_r; simpl; repeat split; auto.
      * destruct (IH (e2 :: r) (c + length (flat_map (chunks_of chunk_ids) (firstn b q)))
                    (store ++ flat_map (chunks_of chunk_ids) (firstn b q)) fuel Hb)
          as [st' [Hrun [Hemp Hcnt]]]; [simpl length in *; lia | simpl length in *; lia |].
        simpl documents_count; rewrite Hrun; exists st'; repeat split; auto.
        -- rewrite Hfb, Hq, app_assoc; reflexivity.
        -- intros _; rewrite Hcnt by discriminate; rewrite Hq, length_app; lia.
Qed.

End BatchLoop.

Section BatchClaims.
Local Open Scope nat_scope.

(** C5: with [batch_size >= 1], the loop over a queue of [N] entries
    processes the batches [fifo_batches]: the first [batch_size]
    remaining entries each time, in FIFO order, [ceil(N / batch_size)]
    of them ([[a;b;c]] with size 2 gives [[a;b]] then [[c]]); each
    [create_documents] run on a non-empty queue adds to
    [documents_count] exactly the number of chunks it stored. *)
Theorem batch_loop_fifo : forall chunk_ids batch_size q c store,
  1 <= batch_size ->
  (exists st',
     run_batches chunk_ids batch_size (S (length q)) (mkState q c) store =
       Some (st', store ++ flat_map (chunks_of chunk_ids) q,
             fifo_batches batch_size (length q) q) /\
     (q <> [] -> documents_count st' = c + length (flat_map (chunks_of chunk_ids) q))) /\
  length (fifo_batches batch_size (length q) q) = (length q + batch_size - 1) / batch_size /\
  concat (fifo_batches batch_size (length q) q) = q /\
  (forall st store0, sitemap_entries st <> [] ->
     create_documents chunk_ids batch_size st store0 =
       (mkState (skipn batch_size (sitemap_entries st))
          (documents_count st +
           length (flat_map (chunks_of chunk_ids) (firstn batch_size (sitemap_entries st)))),
        store0 ++ flat_map (chunks_of chunk_ids) (firstn batch_size (sitemap_entries st)),
        Some (firstn batch_size (sitemap_entries st)))) /\
  fifo_batches 2 3 [mkEntry "a" 0; mkEntry "b" 0; mkEntry "c" 0] =
    [[mkEntry "a" 0; mkEntry "b" 0]; [mkEntry "c" 0]].
Proof.
  intros chunk_ids b q c store Hb.
  destruct (run_batches_spec chunk_ids b (length q) q c store (S (length q)) Hb)
    as [st' [Hrun [_ Hcnt]]]; [lia|lia|].
  split; [exists st'; split; auto|].
  split; [apply fifo_batches_length; auto|].
  split; [apply fifo_batches_concat; auto|].
  split; [intros; apply create_documents_step; auto|reflexivity].
Qed.

(** C7: with [batch_size >= 1] the loop ends within [N + 1] runs of the
    node; each run on a non-empty queue leaves [skipn batch_size] of it,
    which is strictly shorter; [check_next_batch] routes to the end
    exactly when the queue is empty. *)
Theorem batch_loop_terminates : forall chunk_ids batch_size q c store,
  1 <= batch_size ->
  (exists r, run_batches chunk_ids batch_size (S (length q)) (mkState q c) store = Some r) /\
  (forall st store0, sitemap_entries st <> [] ->
     sitemap_entries (fst (fst (create_documents chunk_ids batch_size st store0))) =
       skipn batch_size (sitemap_entries st) /\
     length (sitemap_entries (fst (fst (create_documents chunk_ids batch_size st store0)))) <
       length (sitemap_entries st)) /\
  (forall st, check_next_batch st = REnd <-> sitemap_entries st = []).
Proof.
  intros chunk_ids b q c store Hb.
  destruct (run_batches_spec chunk_ids b (length q) q c store (S (length q)) Hb)
    as [st' [Hrun _]]; [lia|lia|].
  split; [eexists; exact Hrun|split].
  - intros st store0 Hne; rewrite create_documents_step by exact Hne; simpl.
    split; [reflexivity|apply skipn_shorter; auto].
  - intros [[|e q'] c']; unfold check_next_batch; simpl; split; congruence.
Qed.

End BatchClaims.

(* ================================================================== *)
(** * Errors of [filter_sitemap_entries] *)



(* ================================================================== *)
(** * Slack blocks *)

Lemma fold_blocks : forall l acc,
  fold_left (fun blocks result => blocks ++ [Section (result_text result); Divider]) l acc =
  acc ++ flat_map (fun r => [Section (result_text r); Divider]) l.
Proof.
  induction l as [|r l IH]; intros acc; simpl; [rewrite app_nil_r; reflexivity|].
  rewrite IH, <- app_assoc; reflexivity.
Qed.

Lemma length_pair_blocks : forall l,
  length (flat_map (fun r => [Section (result_text r); Divider]) l) = (2 * length l)%nat.
Proof. induction l as [|r l IH]; simpl; [reflexivity|rewrite IH; lia]. Qed.

(** C10: the message is a header section and a divider, then a section
    and a divider for each of the first 20 results in order; its length
    is [2 + 2 * min (length results) 20]. *)
Theorem slack_blocks_shape : forall results,
  build_slack_message_blocks results =
    Section "*Analysis Results:*" :: Divider ::
    flat_map (fun r => [Section (result_text r); Divider]) (firstn 20 results) /\
  length (build_slack_message_blocks results) = (2 + 2 * Nat.min (length results) 20)%nat.
Proof.
  intros results; unfold build_slack_message_blocks; rewrite fold_blocks; split; [reflexivity|].
  rewrite length_app, length_pair_blocks, length_firstn; simpl length; lia.
Qed.

(* ================================================================== *)
(** * Two runs in a row *)

Lemma in_chunks_of : forall chunk_ids e m,
  In m (chunks_of chunk_ids e) -> source m = url e /\ mlastmod m = lastmod e.
Proof.
  intros chunk_ids e m H; unfold chunks_of in H; apply in_map_iff in H as [i [<- _]].
  split; reflexivity.
Qed.

Lemma full_run_store : forall chunk_ids b db store sitemap store',
  (1 <= b)%nat ->
  full_run chunk_ids b db store sitemap = Some store' ->
  store' = delete_by_ids (snd (reconcile db store sitemap)) store ++
           flat_map (chunks_of chunk_ids) (fst (reconcile db store sitemap)).
Proof.
  intros chunk_ids b db store sitemap store' Hb H; unfold full_run in H.
  destruct (reconcile db store sitemap) as [ti td]; simpl.
  destruct (run_batches_spec chunk_ids b (length ti) ti 0 (delete_by_ids td store)
              (S (length ti)) Hb) as [st' [Hrun _]]; [lia|lia|].
  rewrite Hrun in H; inversion H; reflexivity.
Qed.

Lemma reconcile_all_unchanged : forall db ml es,
  (forall e, In e es -> vector_flag db e = 1%nat) -> reconcile db ml es = ([], []).
Proof.
  induction es as [|e es IH]; intros H; [reflexivity|].
  rewrite reconcile_cons, IH by (intros; apply H; simpl; auto).
  unfold contribution; rewrite (H e) by (simpl; auto); reflexivity.
Qed.

(** After a first run, every record of a sitemap url is at or after the
    entry, and there is one. *)
Lemma after_run_records : forall chunk_ids b db1 store sitemap store' e,
  (1 <= b)%nat ->
  db_enum db1 store -> NoDup (map mid store) -> NoDup (map url sitemap) ->
  (forall e m1 m2, In e sitemap -> In m1 store -> In m2 store ->
     source m1 = url e -> source m2 = url e -> mlastmod m1 = mlastmod m2) ->
  (forall e, In e sitemap -> chunk_ids e <> []) ->
  full_run chunk_ids b db1 store sitemap = Some store' ->
  In e sitemap ->
  (exists m, In m store' /\ source m = url e) /\
  (forall m, In m store' -> source m = url e -> lastmod e <= mlastmod m).
Proof.
  intros chunk_ids b db1 store sitemap store' e Hb [_ [Hincl Hincl']] Hnd Hndu Huni Hch Hrun He.
  apply full_run_store in Hrun; auto; subst store'.
  (* a chunk of url [url e] comes from [e] itself *)
  assert (Hchunk : forall m, In m (flat_map (chunks_of chunk_ids) (fst (reconcile db1 store sitemap))) ->
            source m = url e -> In e (fst (reconcile db1 store sitemap)) /\ mlastmod m = lastmod e).
  { intros m Hm Hs; apply in_flat_map in Hm as [e' [He' Hm]].
    apply in_chunks_of in Hm as [Hs' Hl']; pose proof He' as He''.
    apply in_to_index in He'' as [He's _].
    assert (e' = e) by (apply (NoDup_map_inj url sitemap); auto; congruence); subst e'.
    auto. }
  (* the chunks of [e] when it is re-indexed *)
  assert (Hown : In e (fst (reconcile db1 store sitemap)) ->
            exists m, In m (flat_map (chunks_of chunk_ids) (fst (reconcile db1 store sitemap))) /\
                      source m = url e).
  { intros Hin; destruct (chunk_ids e) as [|i is] eqn:Ci; [exfalso; apply (Hch e He Ci)|].
    exists (mkMeta i (url e) (lastmod e)); split; [|reflexivity].
    apply in_flat_map; exists e; split; auto.
    unfold chunks_of; rewrite Ci; simpl; auto. }
  pose proof (vector_flag_le2 db1 e) as Hle.
  destruct (vector_flag db1 e) as [|[|[|k]]] eqn:F; [| | |lia].
  - (* new *)
    assert (Hin : In e (fst (reconcile db1 store sitemap))) by (apply in_to_index; rewrite F; auto).
    split.
    + destruct (Hown Hin) as [m [Hm Hs]]; exists m; split; auto; apply in_or_app; auto.
    + intros m Hm Hs; apply in_app_or in Hm as [Hm|Hm].
      * apply in_delete_by_ids in Hm as [Hm _].
        exfalso; apply (vector_flag_zero db1 e F (pair_of m)); [apply Hincl', in_map; auto|exact Hs].
      * destruct (Hchunk m Hm Hs) as [_ ->]; lia.
  - (* unchanged *)
    destruct (vector_flag_found db1 e) as [l [Hdb Hf]]; [congruence|].
    rewrite F in Hf; destruct (Z.leb (lastmod e) l) eqn:Lz; [|discriminate].
    apply Z.leb_le in Lz.
    pose proof (Hincl _ Hdb) as Hp; apply in_map_iff in Hp as [m0 [Hpm Hm0]].
    unfold pair_of in Hpm; injection Hpm as Hs0 Hl0.
    assert (Hkeep : forall m, In m store -> source m = url e ->
              In m (delete_by_ids (snd (reconcile db1 store sitemap)) store)).
    { intros m Hm Hs; apply in_delete_by_ids; split; auto; intros Hi.
      apply in_to_delete in Hi as [e' [m' [He' [F' [Hm' [Hs' Hid]]]]]].
      assert (m' = m) by (apply (NoDup_map_inj mid store); auto); subst m'.
      assert (e' = e) by (apply (NoDup_map_inj url sitemap); auto; congruence); subst e'.
      congruence. }
    split.
    + exists m0; split; auto; apply in_or_app; left; apply Hkeep; auto.
    + intros m Hm Hs; apply in_app_or in Hm as [Hm|Hm].
      * apply in_delete_by_ids in Hm as [Hm _].
        rewrite (Huni e m m0 He Hm Hm0 Hs Hs0), Hl0; exact Lz.
      * destruct (Hchunk m Hm Hs) as [Hin _].
        apply in_to_index in Hin as [_ Hne]; congruence.
  - (* stale *)
    assert (Hin : In e (fst (reconcile db1 store sitemap))) by (apply in_to_index; rewrite F; auto).
    split.
    + destruct (Hown Hin) as [m [Hm Hs]]; exists m; split; auto; apply in_or_app; auto.
    + intros m Hm Hs; apply in_app_or in Hm as [Hm|Hm].
      * apply in_delete_by_ids in Hm as [Hm Hnot].
        exfalso; apply Hnot, in_to_delete; exists e, m; auto.
      * destruct (Hchunk m Hm Hs) as [_ ->]; lia.
Qed.

(** C4 (amended): if the store's ids are unique, the records of each
    sitemap url share one lastmod, the sitemap's urls are distinct, and
    every entry indexed yields at least one chunk, then after a full first
    run the second reconciliation with the same sitemap, whatever the set
    iteration order, has empty [to_index] and [to_delete]. *)
Theorem full_run_idempotent : forall chunk_ids batch_size db1 store sitemap store' db2,
  (1 <= batch_size)%nat ->
  db_enum db1 store -> NoDup (map mid store) -> NoDup (map url sitemap) ->
  (forall e m1 m2, In e sitemap -> In m1 store -> In m2 store ->
     source m1 = url e -> source m2 = url e -> mlastmod m1 = mlastmod m2) ->
  (forall e, In e sitemap -> chunk_ids e <> []) ->
  full_run chunk_ids batch_size db1 store sitemap = Some store' ->
  db_enum db2 store' ->
  reconcile db2 store' sitemap = ([], []).
Proof.
  intros chunk_ids b db1 store sitemap store' db2 Hb Hdb1 Hnd Hndu Huni Hch Hrun [_ [Hincl Hincl']].
  apply reconcile_all_unchanged; intros e He.
  destruct (after_run_records chunk_ids b db1 store sitemap store' e Hb Hdb1 Hnd Hndu Huni Hch Hrun He)
    as [[m [Hm Hs]] Hall].
  apply vector_flag_one.
  - exists (pair_of m); split; [apply Hincl', in_map; auto|exact Hs].
  - intros p Hp Hu; apply Hincl, in_map_iff in Hp as [m' [<- Hm']].
    apply Hall; auto.
Qed.

(** C4 fails as stated, in three ways:
    - records [x] (lastmod 1) and [y] (lastmod 3) for url ["a"], sitemap
      [[a at 2]]: the first run iterates [[("a",3); ("a",1)]] and changes
      nothing, the second iterates [[("a",1); ("a",3)]] and re-indexes [a];
    - a page that yields no chunk is New again on the second run;
    - the sitemap [[a at 1; a at 2]] on an empty store indexes both, and
      the second run may find [a at 2] stale. *)
Lemma rerun_not_idempotent_cex :
  (full_run (fun _ => ["c"%string]) 1 [("a"%string, 3); ("a"%string, 1)]
     [mkMeta "x" "a" 1; mkMeta "y" "a" 3] [mkEntry "a" 2] =
     Some [mkMeta "x" "a" 1; mkMeta "y" "a" 3] /\
   db_enum [("a"%string, 3); ("a"%string, 1)] [mkMeta "x" "a" 1; mkMeta "y" "a" 3] /\
   db_enum [("a"%string, 1); ("a"%string, 3)] [mkMeta "x" "a" 1; mkMeta "y" "a" 3] /\
   reconcile [("a"%string, 1); ("a"%string, 3)] [mkMeta "x" "a" 1; mkMeta "y" "a" 3]
     [mkEntry "a" 2] = ([mkEntry "a" 2], ["x"%string; "y"%string])) /\
  (full_run (fun _ => []) 1 [] [] [mkEntry "a" 1] = Some [] /\
   reconcile [] [] [mkEntry "a" 1] = ([mkEntry "a" 1], [])) /\
  (full_run (fun e => [if Z.eqb (lastmod e) 1 then "c1"%string else "c2"%string]) 1 [] []
     [mkEntry "a" 1; mkEntry "a" 2] = Some [mkMeta "c1" "a" 1; mkMeta "c2" "a" 2] /\
   db_enum [("a"%string, 1); ("a"%string, 2)] [mkMeta "c1" "a" 1; mkMeta "c2" "a" 2] /\
   reconcile [("a"%string, 1); ("a"%string, 2)] [mkMeta "c1" "a" 1; mkMeta "c2" "a" 2]
     [mkEntry "a" 1; mkEntry "a" 2] = ([mkEntry "a" 2], ["c1"%string; "c2"%string])).
Proof.
  refine (conj (conj _ (conj _ (conj _ _))) (conj (conj _ _) (conj _ (conj _ _)))).
  all: first [reflexivity | apply db_enum_b_sound; reflexivity].
Qed.

(* ================================================================== *)
(** * Witnesses: the hypotheses of the claims hold on concrete inputs *)

Lemma reconcile_new_entry_witness :
  db_enum [("b"%string, 1)] [mkMeta "x" "b" 1] /\
  (forall m, In m [mkMeta "x" "b" 1] -> source m <> url (mkEntry "a" 5)) /\
  vector_flag [("b"%string, 1)] (mkEntry "a" 5) = 0%nat.
Proof.
  assert (H1 : db_enum [("b"%string, 1)] [mkMeta "x" "b" 1])
    by (apply db_enum_b_sound; reflexivity).
  assert (H2 : forall m, In m [mkMeta "x" "b" 1] -> source m <> url (mkEntry "a" 5))
    by (intros m [<-|[]]; simpl; discriminate).
  split; [exact H1|split; [exact H2|]].
  exact (proj1 (reconcile_new_entry _ _ [mkEntry "b" 2] _ [] H1 H2)).
Defined.

Lemma reconcile_matched_entry_witness :
  db_enum [("a"%string, 1)] [mkMeta "x" "a" 1] /\
  (exists m, In m [mkMeta "x" "a" 1] /\ source m = url (mkEntry "a" 2)) /\
  reconcile [("a"%string, 1)] [mkMeta "x" "a" 1] ([] ++ [mkEntry "a" 2]) =
    ([] ++ [mkEntry "a" 2] ++ [], [] ++ ["x"%string] ++ []).
Proof.
  assert (H1 : db_enum [("a"%string, 1)] [mkMeta "x" "a" 1])
    by (apply db_enum_b_sound; reflexivity).
  assert (H2 : exists m, In m [mkMeta "x" "a" 1] /\ source m = url (mkEntry "a" 2))
    by (exists (mkMeta "x" "a" 1); simpl; auto).
  split; [exact H1|split; [exact H2|]].
  exact (proj2 (reconcile_matched_entry _ _ [] (mkEntry "a" 2) [] H1 H2) 1
           (fun m Hm _ => match Hm with
                          | or_introl E => f_equal mlastmod (eq_sym E)
                          | or_intror F => False_ind _ F
                          end)).
Defined.

Lemma reconcile_records_after_delete_witness :
  NoDup (map mid [mkMeta "x" "a" 1; mkMeta "y" "b" 1]) /\
  records_of "a" (delete_by_ids (snd (reconcile [("a"%string, 1); ("b"%string, 1)]
                                     [mkMeta "x" "a" 1; mkMeta "y" "b" 1] [mkEntry "a" 2]))
                   [mkMeta "x" "a" 1; mkMeta "y" "b" 1]) = [] /\
  records_of "b" (delete_by_ids (snd (reconcile [("a"%string, 1); ("b"%string, 1)]
                                     [mkMeta "x" "a" 1; mkMeta "y" "b" 1] [mkEntry "a" 2]))
                   [mkMeta "x" "a" 1; mkMeta "y" "b" 1]) = [mkMeta "y" "b" 1].
Proof.
  assert (H : NoDup (map mid [mkMeta "x" "a" 1; mkMeta "y" "b" 1]))
    by (repeat constructor; simpl; intuition discriminate).
  split; [exact H|split].
  - exact (reconcile_records_after_delete _ _ _ "a" H).
  - exact (reconcile_records_after_delete _ _ _ "b" H).
Defined.

Lemma full_run_idempotent_witness :
  full_run (fun e => [url e]) 1 [("a"%string, 1)] [mkMeta "x" "a" 1]
    [mkEntry "a" 2; mkEntry "b" 1] = Some [mkMeta "a" "a" 2; mkMeta "b" "b" 1] /\
  reconcile [("b"%string, 1); ("a"%string, 2)] [mkMeta "a" "a" 2; mkMeta "b" "b" 1]
    [mkEntry "a" 2; mkEntry "b" 1] = ([], []).
Proof.
  assert (Hrun : full_run (fun e => [url e]) 1 [("a"%string, 1)] [mkMeta "x" "a" 1]
                   [mkEntry "a" 2; mkEntry "b" 1] = Some [mkMeta "a" "a" 2; mkMeta "b" "b" 1])
    by reflexivity.
  split; [exact Hrun|].
  apply (full_run_idempotent (fun e => [url e]) 1 [("a"%string, 1)] [mkMeta "x" "a" 1]
           [mkEntry "a" 2; mkEntry "b" 1] _ _).
  - lia.
  - apply db_enum_b_sound; reflexivity.
  - repeat constructor; simpl; intuition discriminate.
  - repeat constructor; simpl; intuition discriminate.
  - intros e m1 m2 _ [<-|[]] [<-|[]] _ _; reflexivity.
  - intros e _; simpl; discriminate.
  - exact Hrun.
  - apply db_enum_b_sound; reflexivity.
Defined.

Lemma batch_loop_fifo_witness :
  (1 <= 2)%nat /\
  length (fifo_batches 2 3 [mkEntry "a" 0; mkEntry "b" 0; mkEntry "c" 0]) = ((3 + 2 - 1) / 2)%nat.
Proof.
  assert (H : (1 <= 2)%nat) by lia.
  split; [exact H|].
  exact (proj1 (proj2 (batch_loop_fifo (fun _ => []) 2
                         [mkEntry "a" 0; mkEntry "b" 0; mkEntry "c" 0] 0 [] H))).
Defined.

Lemma batch_loop_terminates_witness :
  (1 <= 2)%nat /\
  exists r, run_batches (fun _ => ["k"%string]) 2 4
              (mkState [mkEntry "a" 0; mkEntry "b" 0; mkEntry "c" 0] 0) [] = Some r.
Proof.
  assert (H : (1 <= 2)%nat) by lia.
  split; [exact H|].
  exact (proj1 (batch_loop_terminates (fun _ => ["k"%string]) 2
                  [mkEntry "a" 0; mkEntry "b" 0; mkEntry "c" 0] 0 [] H)).
Defined.


Lemma reconcile_per_occurrence_witness :
  db_enum [] [] /\
  filter (fun e => String.eqb (url e) "a") (fst (reconcile [] [] [mkEntry "a" 1; mkEntry "a" 2])) =
  [mkEntry "a" 1; mkEntry "a" 2].
Proof.
  assert (H : db_enum [] []) by (apply db_enum_b_sound; reflexivity).
  split; [exact H|].
  exact (proj2 (reconcile_per_occurrence [] [] [mkEntry "a" 1; mkEntry "a" 2] "a" H)
           (fun m Hm => False_ind _ Hm)).
Defined.

Lemma reconcile_deletes_only_stale_witness :
  NoDup (map mid [mkMeta "x" "a" 1; mkMeta "z" "b" 1]) /\
  In (mkMeta "z" "b" 1)
    (delete_by_ids (snd (reconcile [("a"%string, 1); ("b"%string, 1)]
                           [mkMeta "x" "a" 1; mkMeta "z" "b" 1] [mkEntry "a" 2]))
       [mkMeta "x" "a" 1; mkMeta "z" "b" 1]).
Proof.
  assert (H : NoDup (map mid [mkMeta "x" "a" 1; mkMeta "z" "b" 1]))
    by (repeat constructor; simpl; intuition discriminate).
  split; [exact H|].
  apply (proj2 (reconcile_deletes_only_stale [("a"%string, 1); ("b"%string, 1)]
                  [mkMeta "x" "a" 1; mkMeta "z" "b" 1] [mkEntry "a" 2]) H).
  - simpl; auto.
  - intros e [<-|[]]; simpl; discriminate.
Defined.

(* ================================================================== *)
(** * Further properties of the code *)

(** *** The Slack handler *)

Lemma dm_check : forall event,
  (match ev_channel_type event with
   | Some ct => existsb (String.eqb ct) ["im"; "group"]%string
   | None => false
   end) = true <-> is_dm event.
Proof.
  intros event; unfold is_dm; destruct (ev_channel_type event) as [ct|]; simpl.
  - rewrite orb_false_r, orb_true_iff, !String.eqb_eq; split.
    + intros H; exists ct; split; auto.
    + intros [ct' [E H]]; inversion E; subst; exact H.
  - split; [discriminate|intros [ct [E _]]; discriminate].
Qed.

Lemma bot_check : forall event,
  (match ev_bot_id event with
   | Some b => negb (String.eqb b "")
   | None => false
   end) = true <-> from_bot event.
Proof.
  intros event; unfold from_bot; destruct (ev_bot_id event) as [b|]; simpl.
  - rewrite negb_true_iff, String.eqb_neq; split.
    + intros H; exists b; auto.
    + intros [b' [E H]]; inversion E; subst; exact H.
  - split; [discriminate|intros [b [E _]]; discriminate].
Qed.

Lemma valid_event_false : forall event,
  ~ is_dm event \/ from_bot event -> is_valid_event event = VFalse.
Proof.
  intros event H; unfold is_valid_event.
  destruct (match ev_channel_type event with
            | Some ct => existsb (String.eqb ct) ["im"; "group"]%string
            | None => false end) eqn:D; simpl; [|reflexivity].
  destruct (match ev_bot_id event with
            | Some b => negb (String.eqb b "")
            | None => false end) eqn:B; [reflexivity|].
  exfalso; destruct H as [H|H].
  - apply H, dm_check, D.
  - apply bot_check in H; congruence.
Qed.

Lemma valid_event_dm : forall event,
  is_dm event -> ~ from_bot event ->
  is_valid_event event =
    match py_strip (event_text event) with
    | [] => VRaise "Message text is empty."
    | _ => VTrue
    end.
Proof.
  intros event Hd Hb; unfold is_valid_event.
  apply dm_check in Hd; rewrite Hd; simpl.
  destruct (match ev_bot_id event with
            | Some b => negb (String.eqb b "")
            | None => false end) eqn:B; [exfalso; apply Hb, bot_check, B|reflexivity].
Qed.

(** X1: [_is_valid_event] accepts exactly the direct or group messages
    without a bot id and with non-blank text; it raises only for such a
    message whose text is blank, so a blank message elsewhere, or from a
    bot, is ignored without error. *)
Theorem is_valid_event_spec : forall event,
  (is_valid_event event = VTrue <->
     is_dm event /\ ~ from_bot event /\ py_strip (event_text event) <> []) /\
  (forall msg, is_valid_event event = VRaise msg <->
     msg = "Message text is empty."%string /\ is_dm event /\ ~ from_bot event /\
     py_strip (event_text event) = []).
Proof.
  intros event.
  destruct (match ev_channel_type event with
            | Some ct => existsb (String.eqb ct) ["im"; "group"]%string
            | None => false end) eqn:D.
  - assert (Hd : is_dm event) by (apply dm_check, D).
    destruct (match ev_bot_id event with
              | Some b => negb (String.eqb b "")
              | None => false end) eqn:B.
    + assert (Hb : from_bot event) by (apply bot_check, B).
      rewrite (valid_event_false event (or_intror Hb)).
      split; [split; [discriminate | intros [_ [Hn _]]; contradiction] |].
      intros msg; split; [discriminate | intros [_ [_ [Hn _]]]; contradiction].
    + assert (Hb : ~ from_bot event)
        by (intros H; apply bot_check in H; congruence).
      rewrite (valid_event_dm event Hd Hb).
      destruct (py_strip (event_text event)) as [|c cs].
      * split; [split; [discriminate | intros [_ [_ H]]; congruence] |].
        intros msg; split.
        -- intros E; inversion E; auto.
        -- intros [E _]; subst; reflexivity.
      * split; [split; [intros _; repeat split; auto; discriminate | reflexivity] |].
        intros msg; split; [discriminate | intros [_ [_ [_ E]]]; discriminate].
  - assert (Hd : ~ is_dm event) by (intros H; apply dm_check in H; congruence).
    rewrite (valid_event_false event (or_introl Hd)).
    split; [split; [discriminate | intros [H _]; contradiction] |].
    intros msg; split; [discriminate | intros [_ [H _]]; contradiction].
Qed.

Lemma valid_event_true : forall event,
  is_valid_event event = VTrue ->
  is_dm event /\ ~ from_bot event /\ py_strip (event_text event) <> [].
Proof.
  intros event V.
  destruct (match ev_channel_type event with
            | Some ct => existsb (String.eqb ct) ["im"; "group"]%string
            | None => false end) eqn:D.
  - assert (Hd : is_dm event) by (apply dm_check, D).
    destruct (match ev_bot_id event with
              | Some b => negb (String.eqb b "")
              | None => false end) eqn:B.
    + rewrite valid_event_false in V; [discriminate | right; apply bot_check, B].
    + assert (Hb : ~ from_bot event)
        by (intros H; apply bot_check in H; congruence).
      rewrite (valid_event_dm event Hd Hb) in V.
      destruct (py_strip (event_text event)); [discriminate|].
      repeat split; auto; discriminate.
  - rewrite valid_event_false in V; [discriminate|].
    left; intros H; apply dm_check in H; congruence.
Qed.

Ltac handler_cases :=
  unfold handle_direct_message;
  repeat match goal with
  | |- context [is_valid_event ?e] => destruct (is_valid_event e) eqn:?
  | |- context [ev_channel ?e] => destruct (ev_channel e)
  | |- context [negb ?b] => is_var b; destruct b
  | |- context [match ?g ?t with RagResults _ => _ | _ => _ end] =>
      destruct (g t)
  | |- context [if ?b then _ else _] => is_var b; destruct b
  end.

(** X3: an event that is not a direct or group message, or that comes
    from a bot, is acknowledged and otherwise ignored: no placeholder, no
    query, no reply. A request without an event is ignored the same way. *)
Theorem handler_ignores_other_events : forall placeholder_ok post_ok get_answer body,
  ~ is_dm (body_event body) \/ from_bot (body_event body) ->
  handle_direct_message placeholder_ok post_ok get_answer body = [Ack].
Proof.
  intros pok rok ga body H; unfold handle_direct_message.
  rewrite (valid_event_false _ H); reflexivity.
Qed.

(** X4: a direct message from a user whose text is blank after [strip()]
    is acknowledged and answered with "Message text is empty.", without a
    placeholder or a query. *)
Theorem handler_blank_message : forall placeholder_ok post_ok get_answer body,
  is_dm (body_event body) -> ~ from_bot (body_event body) ->
  py_strip (event_text (body_event body)) = [] ->
  handle_direct_message placeholder_ok post_ok get_answer body =
    [Ack; Say "Message text is empty."].
Proof.
  intros pok rok ga body Hd Hb Ht; unfold handle_direct_message.
  rewrite (valid_event_dm _ Hd Hb), Ht; reflexivity.
Qed.

Lemma get_answer_facts : forall placeholder_ok post_ok get_answer body t,
  In (GetAnswer t) (handle_direct_message placeholder_ok post_ok get_answer body) ->
  t = py_strip (event_text (body_event body)) /\ t <> [] /\
  is_dm (body_event body) /\ ~ from_bot (body_event body) /\
  placeholder_ok = true.
Proof.
  intros pok rok ga body t H; revert H.
  handler_cases; simpl; intros H;
    repeat (destruct H as [H|H]; [try discriminate|]); try contradiction.
  all: injection H as <-.
  all: match goal with V : is_valid_event _ = VTrue |- _ =>
         destruct (valid_event_true _ V) as [? [? ?]] end.
  all: repeat split; auto.
Qed.

(** X5: the RAG graph is queried only for a direct message from a user,
    right after the placeholder was posted to the message's channel and
    returned without error, and then with the stripped, non-empty message
    text. *)
Theorem handler_query_guard : forall placeholder_ok post_ok get_answer body t,
  In (GetAnswer t) (handle_direct_message placeholder_ok post_ok get_answer body) ->
  exists channel rest,
    handle_direct_message placeholder_ok post_ok get_answer body =
      Ack :: PostPlaceholder channel (ev_user (body_event body)) :: GetAnswer t :: rest /\
    ev_channel (body_event body) = Some channel /\
    t = py_strip (event_text (body_event body)) /\ t <> [] /\
    is_dm (body_event body) /\ ~ from_bot (body_event body) /\
    placeholder_ok = true.
Proof.
  intros pok rok ga body t H.
  destruct (get_answer_facts _ _ _ _ _ H) as [Ht [Hne [Hd [Hb Hp]]]]; subst pok.
  assert (V : is_valid_event (body_event body) = VTrue).
  { rewrite (valid_event_dm _ Hd Hb).
    destruct (py_strip (event_text (body_event body))); [congruence|reflexivity]. }
  destruct (ev_channel (body_event body)) as [c|] eqn:C.
  - exists c; eexists; split; [|repeat split; auto].
    subst t; cbv beta zeta delta [handle_direct_message]; rewrite V, C; reflexivity.
  - exfalso; revert H; cbv beta zeta delta [handle_direct_message]; rewrite V, C.
    simpl; intuition discriminate.
Qed.

(** X6: when the placeholder and the reply are posted without error and
    the RAG graph returns results for a valid direct message, the handler
    makes exactly four calls, the last one posting the response built from
    the results, and sends no error message. *)
Theorem handler_success_path : forall get_answer body channel results,
  is_dm (body_event body) -> ~ from_bot (body_event body) ->
  py_strip (event_text (body_event body)) <> [] ->
  ev_channel (body_event body) = Some channel ->
  get_answer (py_strip (event_text (body_event body))) = RagResults results ->
  handle_direct_message true true get_answer body =
    [Ack; PostPlaceholder channel (ev_user (body_event body));
     GetAnswer (py_strip (event_text (body_event body)));
     PostResponse channel (generate_response results)].
Proof.
  intros ga body c rs Hd Hb Ht Hc Hg; unfold handle_direct_message.
  rewrite (valid_event_dm _ Hd Hb).
  destruct (py_strip (event_text (body_event body))) as [|x xs] eqn:E;
    [contradiction|].
  rewrite Hc; simpl; rewrite Hg; reflexivity.
Qed.

(** X7: the handler sends at most one message with [say], always as its
    last action, and never after the response was posted successfully. *)
Theorem handler_say_last : forall placeholder_ok post_ok get_answer body msg,
  In (Say msg) (handle_direct_message placeholder_ok post_ok get_answer body) ->
  last (handle_direct_message placeholder_ok post_ok get_answer body) Ack = Say msg /\
  (forall msg', ~ In (Say msg')
     (removelast (handle_direct_message placeholder_ok post_ok get_answer body))) /\
  (post_ok = true -> forall c r,
     ~ In (PostResponse c r) (handle_direct_message placeholder_ok post_ok get_answer body)).
Proof.
  intros pok rok ga body m H; revert H.
  handler_cases; simpl; intros H;
    repeat (destruct H as [H|H]; [try discriminate|]); try contradiction.
  all: injection H as <-.
  all: split; [reflexivity|]; split; [intros m'; simpl; intuition discriminate|].
  all: intros Hr; try discriminate; intros c r; simpl; intuition discriminate.
Qed.

(** *** Reconciliation and [filter_sitemap_entries] *)

Lemma NoDup_map_filter : forall {A B} (g : A -> B) (f : A -> bool) l,
  NoDup (map g l) -> NoDup (map g (filter f l)).
Proof.
  intros A B g f l; induction l as [|a l IH]; simpl; intros H; [constructor|].
  inversion H as [|? ? Hn Hl]; subst.
  destruct (f a); simpl; [constructor|]; auto.
  intros Hin; apply Hn; apply in_map_iff in Hin as [x [Hx Hin]].
  apply filter_In in Hin as [Hin _]; rewrite <- Hx; apply in_map; exact Hin.
Qed.

Lemma extract_metadata_ids : forall results raw,
  extract_metadata results = Some raw -> map raw_id raw = map doc_id results.
Proof.
  induction results as [|d ds IH]; intros raw H; simpl in H.
  - injection H as <-; reflexivity.
  - destruct (doc_source d), (doc_lastmod d), (extract_metadata ds) eqn:E;
      try discriminate.
    injection H as <-; simpl; f_equal; apply IH; reflexivity.
Qed.

Lemma parse_lastmods_ids : forall raw ml,
  parse_lastmods raw = Some ml -> map mid ml = map raw_id raw.
Proof.
  induction raw as [|r rs IH]; intros ml H; simpl in H.
  - injection H as <-; reflexivity.
  - destruct (raw_lastmod r), (parse_lastmods rs) eqn:E; try discriminate.
    injection H as <-; simpl; f_equal; apply IH; reflexivity.
Qed.

(** X8: [to_index] is the sitemap with the entries found unchanged
    removed, in sitemap order (new and updated entries alike, repeated
    entries included). *)
Theorem reconcile_to_index_order : forall db metadata_list entries,
  fst (reconcile db metadata_list entries) =
    filter (fun e => negb (Nat.eqb (vector_flag db e) 1)) entries.
Proof.
  intros db ml es; induction es as [|e es IH]; [reflexivity|].
  rewrite reconcile_cons; simpl fst; rewrite IH; simpl; unfold contribution.
  destruct (vector_flag db e) as [|[|k]]; reflexivity.
Qed.

(** X9: when the sitemap urls are distinct and the store's ids are
    distinct, [delete_ids] lists no id twice. *)
Theorem reconcile_to_delete_nodup : forall db metadata_list entries,
  NoDup (map url entries) -> NoDup (map mid metadata_list) ->
  NoDup (snd (reconcile db metadata_list entries)).
Proof.
  intros db ml es Hu Hm; induction es as [|e es IH]; [constructor|].
  rewrite reconcile_cons; simpl snd.
  simpl in Hu; inversion Hu as [|? ? Hn Hu']; subst.
  apply NoDup_app.
  - unfold contribution; destruct (vector_flag db e) as [|[|k]]; try constructor.
    rewrite ids_of_spec; unfold records_of; apply NoDup_map_filter; exact Hm.
  - apply IH; exact Hu'.
  - intros i Hi Hi'; unfold contribution in Hi.
    destruct (vector_flag db e) as [|[|k]]; try contradiction.
    apply in_ids_of in Hi as [m [Hm1 [Hs Hi]]].
    apply in_to_delete in Hi' as [e' [m' [He' [_ [Hm' [Hs' Hi']]]]]].
    assert (m = m') by (apply (NoDup_map_inj mid ml); auto; congruence); subst m'.
    apply Hn; rewrite <- Hs, Hs'; apply in_map; exact He'.
Qed.


(** *** The batch loop *)

(** X11: with [batch_size = 0] and a non-empty queue the loop never ends:
    every run of [create_documents] takes an empty batch and leaves the
    queue, the count and the store as they were, so no amount of fuel
    reaches [END]. *)
Theorem run_batches_zero_batch_size : forall chunk_ids fuel queue count store,
  queue <> [] ->
  create_documents chunk_ids 0 (mkState queue count) store =
    (mkState queue count, store, Some []) /\
  run_batches chunk_ids 0 fuel (mkState queue count) store = None.
Proof.
  intros ci fuel q c store Hq.
  assert (Step : create_documents ci 0 (mkState q c) store = (mkState q c, store, Some [])).
  { destruct q as [|e q]; [contradiction|].
    unfold create_documents; simpl; rewrite app_nil_r, Nat.add_0_r; reflexivity. }
  split; [exact Step|].
  induction fuel as [|f IH]; [reflexivity|].
  rewrite run_batches_S, Step; unfold check_next_batch; simpl.
  destruct q; [contradiction|]; rewrite IH; reflexivity.
Qed.

(** *** [IndexConfiguration.from_runnable_config] *)

Lemma lookup_filter_key : forall {A} (p : string -> bool) k (d : list (string * A)),
  p k = true -> lookup k (filter (fun kv => p (fst kv)) d) = lookup k d.
Proof.
  intros A p k d Hp; induction d as [|[k' v] d IH]; [reflexivity|]; simpl.
  destruct (String.eqb k k') eqn:E.
  - apply String.eqb_eq in E; subst k'; rewrite Hp; simpl; rewrite String.eqb_refl;
      reflexivity.
  - destruct (p k'); simpl; [rewrite E|]; exact IH.
Qed.

Lemma ensure_configurable_dict : forall d,
  ensure_configurable (Some [("configurable"%string, PDict d)]) = Some d.
Proof. reflexivity. Qed.

(** X13: given a ["configurable"] dict, each field of the configuration
    is the value of its own key there, or its default when the key is
    absent; keys that are not fields are ignored. *)
Theorem from_runnable_config_fields : forall d,
  from_runnable_config (Some [("configurable"%string, PDict d)]) =
    Some (mkIndexConfiguration
            (lookup_or "user_id" d (PStr "test"))
            (lookup_or "embedding_model" d (PStr "openai/text-embedding-3-small"))
            (lookup_or "retriever_provider" d (PStr "pinecone"))
            (lookup_or "search_kwargs" d (PDict []))
            (lookup_or "index_name" d (PStr "default"))).
Proof.
  intros d; unfold from_runnable_config; rewrite ensure_configurable_dict.
  unfold lookup_or.
  rewrite !(lookup_filter_key (fun k => existsb (String.eqb k) index_fields));
    reflexivity.
Qed.


(** *** Witnesses of the properties above *)

Local Open Scope string_scope.

Lemma handler_ignores_other_events_witness :
  ~ is_dm (mkEvent (Some "channel") None (Some [104; 105]%nat) (Some "C1") (Some "U1")) /\
  handle_direct_message true true (fun _ => RagOtherError)
    (Some (mkEvent (Some "channel") None (Some [104; 105]%nat) (Some "C1") (Some "U1"))) = [Ack].
Proof.
  assert (H : ~ is_dm (mkEvent (Some "channel") None (Some [104; 105]%nat) (Some "C1") (Some "U1")))
    by (intros [ct [E [H|H]]]; injection E as <-; discriminate).
  split; [exact H|].
  apply (handler_ignores_other_events true true (fun _ => RagOtherError)
           (Some (mkEvent (Some "channel") None (Some [104; 105]%nat) (Some "C1") (Some "U1")))).
  left; exact H.
Defined.

Lemma handler_blank_message_witness :
  is_dm (mkEvent (Some "im") None (Some [32; 10; 9]%nat) (Some "D1") (Some "U1")) /\
  ~ from_bot (mkEvent (Some "im") None (Some [32; 10; 9]%nat) (Some "D1") (Some "U1")) /\
  handle_direct_message true true (fun _ => RagOtherError)
    (Some (mkEvent (Some "im") None (Some [32; 10; 9]%nat) (Some "D1") (Some "U1"))) =
    [Ack; Say "Message text is empty."].
Proof.
  assert (Hd : is_dm (mkEvent (Some "im") None (Some [32; 10; 9]%nat) (Some "D1") (Some "U1")))
    by (exists "im"%string; split; [reflexivity|left; reflexivity]).
  assert (Hb : ~ from_bot (mkEvent (Some "im") None (Some [32; 10; 9]%nat) (Some "D1") (Some "U1")))
    by (intros [b [E _]]; discriminate).
  split; [exact Hd|split; [exact Hb|]].
  apply (handler_blank_message true true (fun _ => RagOtherError)
           (Some (mkEvent (Some "im") None (Some [32; 10; 9]%nat) (Some "D1") (Some "U1"))) Hd Hb).
  vm_compute; reflexivity.
Defined.

Lemma handler_query_guard_witness :
  In (GetAnswer [104; 105]%nat)
    (handle_direct_message true true (fun _ => RagResults [])
       (Some (mkEvent (Some "group") None (Some [32; 104; 105; 32]%nat) (Some "G1") (Some "U1")))) /\
  exists channel rest,
    handle_direct_message true true (fun _ => RagResults [])
      (Some (mkEvent (Some "group") None (Some [32; 104; 105; 32]%nat) (Some "G1") (Some "U1"))) =
    Ack :: PostPlaceholder channel (Some "U1") :: GetAnswer [104; 105]%nat :: rest.
Proof.
  assert (H : In (GetAnswer [104; 105]%nat)
    (handle_direct_message true true (fun _ => RagResults [])
       (Some (mkEvent (Some "group") None (Some [32; 104; 105; 32]%nat) (Some "G1") (Some "U1")))))
    by (vm_compute; right; right; left; reflexivity).
  split; [exact H|].
  destruct (handler_query_guard _ _ _ _ _ H) as [c [rest [E _]]].
  exists c, rest; exact E.
Defined.

Lemma handler_success_path_witness :
  handle_direct_message true true (fun _ => RagResults [mkResult (Some "u") None None])
    (Some (mkEvent (Some "im") None (Some [104; 105]%nat) (Some "D1") (Some "U1"))) =
    [Ack; PostPlaceholder "D1" (Some "U1"); GetAnswer [104; 105]%nat;
     PostResponse "D1" (generate_response [mkResult (Some "u") None None])].
Proof.
  apply (handler_success_path (fun _ => RagResults [mkResult (Some "u") None None])
           (Some (mkEvent (Some "im") None (Some [104; 105]%nat) (Some "D1") (Some "U1")))).
  - exists "im"%string; split; [reflexivity|left; reflexivity].
  - intros [b [E _]]; discriminate.
  - vm_compute; discriminate.
  - reflexivity.
  - reflexivity.
Defined.

Lemma handler_say_last_witness :
  In (Say "Unable to send the Slack response.")
    (handle_direct_message true false (fun _ => RagResults [])
       (Some (mkEvent (Some "im") None (Some [104; 105]%nat) (Some "D1") (Some "U1")))) /\
  last (handle_direct_message true false (fun _ => RagResults [])
          (Some (mkEvent (Some "im") None (Some [104; 105]%nat) (Some "D1") (Some "U1")))) Ack =
    Say "Unable to send the Slack response.".
Proof.
  assert (H : In (Say "Unable to send the Slack response.")
    (handle_direct_message true false (fun _ => RagResults [])
       (Some (mkEvent (Some "im") None (Some [104; 105]%nat) (Some "D1") (Some "U1")))))
    by (vm_compute; right; right; right; right; left; reflexivity).
  split; [exact H|exact (proj1 (handler_say_last _ _ _ _ _ H))].
Defined.

Lemma reconcile_to_delete_nodup_witness :
  NoDup (snd (reconcile [("a"%string, 1)] [mkMeta "1" "a" 1; mkMeta "2" "a" 1; mkMeta "3" "b" 1]
                [mkEntry "a" 2; mkEntry "b" 1])).
Proof.
  apply reconcile_to_delete_nodup; repeat constructor; simpl; intuition discriminate.
Defined.


Lemma run_batches_zero_batch_size_witness :
  create_documents (fun _ => ["c"]) 0 (mkState [mkEntry "a" 1] 0) [] =
    (mkState [mkEntry "a" 1] 0, [], Some []) /\
  run_batches (fun _ => ["c"]) 0 100 (mkState [mkEntry "a" 1] 0) [] = None.
Proof.
  apply run_batches_zero_batch_size; discriminate.
Defined.

